(** * Tower of Hanoi solver: the puzzle state, the move generator and the
      playback guard of [tower_of_hanoi.py], embedded in Rocq.

    Python integers are [Z].  A peg's [disks] list is kept in Python's own
    order: index 0 is the bottom disk, the last element is the top, [append]
    is [++ [_]], [pop()] is [removelast] and [disks[-1]] is [last].

    Methods that mutate [self] are computations in a small state-and-exception
    monad: a raised exception leaves the store as it was at the [raise], as in
    Python. *)

From Stdlib Require Import ZArith Lia String.
From stdpp Require Import base list sorting gmap strings.
Import ListNotations.

Local Open Scope Z_scope.
Local Open Scope list_scope.

(** ** Exceptions and the state monad *)

Inductive exn : Type :=
| ValueError
| AttributeError
| TypeError.

Inductive outcome (A : Type) : Type :=
| Returned (a : A)
| Raised (e : exn).

Arguments Returned {A} a.
Arguments Raised {A} e.

Definition M (S A : Type) : Type := S -> outcome A * S.

Definition ret {S A : Type} (a : A) : M S A := fun s => (Returned a, s).

Definition raise {S A : Type} (e : exn) : M S A := fun s => (Raised e, s).

Definition bind {S A B : Type} (c : M S A) (k : A -> M S B) : M S B :=
  fun s =>
    match c s with
    | (Returned a, s') => k a s'
    | (Raised e, s') => (Raised e, s')
    end.

Definition modify {S : Type} (f : S -> S) : M S unit :=
  fun s => (Returned tt, f s).

Notation "x <- c ;; k" := (bind c (fun x => k))
  (at level 62, c at next level, right associativity).
Notation "c ;;; k" := (bind c (fun _ => k))
  (at level 62, right associativity).

(** [for x in xs: body(x)] *)
Fixpoint for_each {S A : Type} (xs : list A) (body : A -> M S unit) : M S unit :=
  match xs with
  | [] => ret tt
  | x :: xs' => body x ;;; for_each xs' body
  end.

(** ** Data model *)

Inductive PegName : Type :=
| SOURCE
| AUXILIARY
| DESTINATION.

Definition PegName_value (p : PegName) : string :=
  match p with
  | SOURCE => "A"
  | AUXILIARY => "B"
  | DESTINATION => "C"
  end%string.

Record Move : Type := mkMove {
  disk_size : Z;
  from_peg : PegName;
  to_peg : PegName
}.

Record Disk : Type := mkDisk {
  size : Z;
  colour : string;
  x : Z;
  y : Z
}.

(** [Disk(size, colour)] *)
Definition Disk_init (size : Z) (colour : string) : Disk :=
  {| size := size; colour := colour; x := 0; y := 0 |}.

Record Peg : Type := mkPeg {
  name : PegName;
  disks : list Disk
}.

(** [Peg(name)] *)
Definition Peg_init (name : PegName) : Peg := {| name := name; disks := [] |}.

Definition set_disks (l : list Disk) (self : Peg) : Peg :=
  {| name := name self; disks := l |}.

Module Peg.

(** [push]: raises [ValueError] when the peg is not empty and the disk is
    not smaller than the top one; otherwise appends. *)
Definition push (disk : Disk) : M Peg unit :=
  fun self =>
    match last (disks self) with
    | Some top =>
        if size disk >=? size top
        then raise ValueError self
        else modify (set_disks (disks self ++ [disk])) self
    | None => modify (set_disks (disks self ++ [disk])) self
    end.

(** [pop]: [self.disks.pop() if self.disks else None] *)
Definition pop : M Peg (option Disk) :=
  fun self =>
    match last (disks self) with
    | Some top => (Returned (Some top), set_disks (removelast (disks self)) self)
    | None => (Returned None, self)
    end.

(** [peek]: [self.disks[-1] if self.disks else None] *)
Definition peek : M Peg (option Disk) :=
  fun self => (Returned (last (disks self)), self).

(** [is_empty]: [len(self.disks) == 0] *)
Definition is_empty : M Peg bool :=
  fun self => (Returned (Nat.eqb (length (disks self)) 0), self).

(** [size]: [len(self.disks)] *)
Definition size : M Peg Z :=
  fun self => (Returned (Z.of_nat (length (disks self))), self).

End Peg.

(** The [pegs] dictionary: its three keys are fixed at construction and never
    added or removed, so it is a record with one field per key. *)
Record PegDict : Type := mkPegDict {
  peg_SOURCE : Peg;
  peg_AUXILIARY : Peg;
  peg_DESTINATION : Peg
}.

(** [pegs[k]] *)
Definition lookup_peg (k : PegName) (d : PegDict) : Peg :=
  match k with
  | SOURCE => peg_SOURCE d
  | AUXILIARY => peg_AUXILIARY d
  | DESTINATION => peg_DESTINATION d
  end.

Definition update_peg (k : PegName) (p : Peg) (d : PegDict) : PegDict :=
  match k with
  | SOURCE => {| peg_SOURCE := p; peg_AUXILIARY := peg_AUXILIARY d;
                 peg_DESTINATION := peg_DESTINATION d |}
  | AUXILIARY => {| peg_SOURCE := peg_SOURCE d; peg_AUXILIARY := p;
                    peg_DESTINATION := peg_DESTINATION d |}
  | DESTINATION => {| peg_SOURCE := peg_SOURCE d; peg_AUXILIARY := peg_AUXILIARY d;
                      peg_DESTINATION := p |}
  end.

Record GameState : Type := mkGameState {
  num_disks : Z;
  total_moves : Z;
  current_move : Z;
  pegs : PegDict;
  colours : list string
}.

Definition set_pegs (d : PegDict) (self : GameState) : GameState :=
  {| num_disks := num_disks self; total_moves := total_moves self;
     current_move := current_move self; pegs := d; colours := colours self |}.

Definition set_current_move (c : Z) (self : GameState) : GameState :=
  {| num_disks := num_disks self; total_moves := total_moves self;
     current_move := c; pegs := pegs self; colours := colours self |}.

(** A method call on the peg object stored under key [k]: the callee sees and
    mutates the one object the dictionary holds, so two names for the same key
    are aliases. *)
Definition at_peg {A : Type} (k : PegName) (c : M Peg A) : M GameState A :=
  fun self =>
    let (r, p) := c (lookup_peg k (pegs self)) in
    (r, set_pegs (update_peg k p (pegs self)) self).

(** [range(start, 0, -1)] *)
Definition range_down (start : Z) : list Z :=
  map (fun k => start - Z.of_nat k) (seq 0 (Z.to_nat start)).

Definition palette : list string :=
  [ "#E8F4FD"; "#4A90E2"; "#7ED321"; "#F5A623"; "#D0021B";
    "#9013FE"; "#50E3C2"; "#B8E986"; "#F8E71C"; "#BD10E0" ]%string.

Module GameState.

(** [self.colours[i - 1] if i <= len(self.colours) else "#CCCCCC"], for the
    [i >= 1] that the loops supply. *)
Definition colour_of (colours : list string) (i : Z) : string :=
  if i <=? Z.of_nat (length colours)
  then nth (Z.to_nat (i - 1)) colours "#CCCCCC"%string
  else "#CCCCCC"%string.

(** Body of the loop shared by [__init__] and [reset]. *)
Definition place_disk (i : Z) : M GameState unit :=
  fun self =>
    let colour := colour_of (colours self) i in
    let disk := Disk_init i colour in
    at_peg SOURCE (Peg.push disk) self.

(** The object as [__init__] has it just before its loop.  [total_moves]
    is [2 ** num_disks - 1]; for a negative [num_disks] Python computes a
    float there, a value no method of the class reads or writes. *)
Definition blank (num_disks : Z) : GameState :=
  {| num_disks := num_disks;
     total_moves := 2 ^ num_disks - 1;
     current_move := 0;
     pegs := {| peg_SOURCE := Peg_init SOURCE;
                peg_AUXILIARY := Peg_init AUXILIARY;
                peg_DESTINATION := Peg_init DESTINATION |};
     colours := palette |}.

(** [GameState(num_disks)]: the constructed object, or the exception that
    escaped the constructor. *)
Definition init (num_disks : Z) : outcome GameState :=
  match for_each (range_down num_disks) place_disk (blank num_disks) with
  | (Returned _, self) => Returned self
  | (Raised e, _) => Raised e
  end.

Definition execute_move (move : Move) : M GameState bool :=
  empty <- at_peg (from_peg move) Peg.is_empty ;;
  if empty : bool then ret false else
  disk <- at_peg (from_peg move) Peg.peek ;;
  match disk with
  | None => ret false
  | Some disk =>
      if negb (size disk =? disk_size move) then ret false else
      to_empty <- at_peg (to_peg move) Peg.is_empty ;;
      blocked <- (if to_empty : bool then ret false else
                  top <- at_peg (to_peg move) Peg.peek ;;
                  match top with
                  | Some top => ret (size top <? size disk)
                  | None => raise AttributeError
                  end) ;;
      if blocked : bool then ret false else
      moved_disk <- at_peg (from_peg move) Peg.pop ;;
      match moved_disk with
      | Some moved_disk =>
          at_peg (to_peg move) (Peg.push moved_disk) ;;;
          modify (fun self => set_current_move (current_move self + 1) self) ;;;
          ret true
      | None =>
          (* [push(None)]: never reached, see [execute_move_raises_only_ValueError] *)
          raise AttributeError
      end
  end.

Definition is_solved : M GameState bool :=
  fun self =>
    (n <- at_peg DESTINATION Peg.size ;;
     if n =? num_disks self then
       source_empty <- at_peg SOURCE Peg.is_empty ;;
       if source_empty : bool then at_peg AUXILIARY Peg.is_empty else ret false
     else ret false) self.

(** [reset]: clears the three pegs in the dictionary's order, refills
    SOURCE and zeroes the counter. *)
Definition reset : M GameState unit :=
  for_each [SOURCE; AUXILIARY; DESTINATION]
           (fun k => at_peg k (modify (set_disks []))) ;;;
  (fun self => for_each (range_down (num_disks self)) place_disk self) ;;;
  modify (set_current_move 0).

End GameState.

(** ** The move generator

    [hanoi_solver] is a recursive generator; its value here is the list of
    the moves it yields, in order.  [fuel] bounds the depth of the recursion:
    [None] means the bound was hit before the generator was exhausted.  The
    interpreter's own recursion limit is not part of the model: any depth can
    be asked for. *)
Fixpoint hanoi_solver (fuel : nat) (n : Z) (source destination auxiliary : PegName)
  : option (list Move) :=
  match fuel with
  | O => None
  | S fuel' =>
      if n =? 1 then Some [mkMove 1 source destination]
      else
        match hanoi_solver fuel' (n - 1) source auxiliary destination with
        | None => None
        | Some before =>
            match hanoi_solver fuel' (n - 1) auxiliary destination source with
            | None => None
            | Some after => Some (before ++ [mkMove n source destination] ++ after)
            end
        end
  end.

(** The driver loop of [test_algorithm.py]: every move of the list is handed
    to [execute_move] in order, and each call's outcome is recorded. *)
Fixpoint apply_moves (moves : list Move) (self : GameState)
  : list (outcome bool) * GameState :=
  match moves with
  | [] => ([], self)
  | move :: rest =>
      let (r, self1) := GameState.execute_move move self in
      let (rs, self2) := apply_moves rest self1 in
      (r :: rs, self2)
  end.

(** Sizes of the disks on peg [k], bottom to top. *)
Definition sizes (k : PegName) (self : GameState) : list Z :=
  map size (disks (lookup_peg k (pegs self))).

Definition disks_on (k : PegName) (self : GameState) : list Disk :=
  disks (lookup_peg k (pegs self)).

(** ** The playback controller

    Of the Tk window only what the control flow reads or writes is kept: the
    two buttons, the status label, the error dialogs shown, and the timers
    that [root.after(animation_speed, self.next_move)] has registered.  The
    canvas is not modelled, so [draw_puzzle] changes nothing here.  The
    generator object is the list of moves it has yet to yield: [next] takes
    the head, and an empty list is [StopIteration]. *)
Module TowerOfHanoiGUI.

Inductive StatusText : Type :=
| ReadyToStart
| MoveProgress (current total remaining : Z)
| SolvedIn (moves : Z)
| SolvingStopped.

Record Widgets : Type := mkWidgets {
  start_button_enabled : bool;
  pause_button_enabled : bool;
  pause_button_text : string;
  status_label : StatusText;
  error_dialogs : list Move;
  after_timers : list Z
}.

Local Abbreviation moves_done := current_move.

Record t : Type := mkGUI {
  game_state : option GameState;
  move_generator : option (list Move);
  is_solving : bool;
  is_paused : bool;
  animation_speed : Z;
  current_move : option Move;
  root : Widgets
}.

Definition set_game_state (v : option GameState) (self : t) : t :=
  mkGUI v (move_generator self) (is_solving self) (is_paused self)
        (animation_speed self) (current_move self) (root self).

Definition set_move_generator (v : option (list Move)) (self : t) : t :=
  mkGUI (game_state self) v (is_solving self) (is_paused self)
        (animation_speed self) (current_move self) (root self).

Definition set_is_solving (v : bool) (self : t) : t :=
  mkGUI (game_state self) (move_generator self) v (is_paused self)
        (animation_speed self) (current_move self) (root self).

Definition set_is_paused (v : bool) (self : t) : t :=
  mkGUI (game_state self) (move_generator self) (is_solving self) v
        (animation_speed self) (current_move self) (root self).

Definition set_current_move (v : option Move) (self : t) : t :=
  mkGUI (game_state self) (move_generator self) (is_solving self) (is_paused self)
        (animation_speed self) v (root self).

Definition set_root (v : Widgets) (self : t) : t :=
  mkGUI (game_state self) (move_generator self) (is_solving self) (is_paused self)
        (animation_speed self) (current_move self) v.

Definition config_start_button (enabled : bool) : M t unit :=
  modify (fun self =>
    let w := root self in
    set_root (mkWidgets enabled (pause_button_enabled w) (pause_button_text w)
                        (status_label w) (error_dialogs w) (after_timers w)) self).

Definition config_pause_button (enabled : option bool) (text : string) : M t unit :=
  modify (fun self =>
    let w := root self in
    set_root (mkWidgets (start_button_enabled w)
                        (match enabled with Some b => b | None => pause_button_enabled w end)
                        text (status_label w) (error_dialogs w) (after_timers w)) self).

Definition config_status_label (text : StatusText) : M t unit :=
  modify (fun self =>
    let w := root self in
    set_root (mkWidgets (start_button_enabled w) (pause_button_enabled w)
                        (pause_button_text w) text (error_dialogs w) (after_timers w)) self).

(** [messagebox.showerror("Error", f"Invalid move: {move}")] *)
Definition showerror (move : Move) : M t unit :=
  modify (fun self =>
    let w := root self in
    set_root (mkWidgets (start_button_enabled w) (pause_button_enabled w)
                        (pause_button_text w) (status_label w)
                        (error_dialogs w ++ [move]) (after_timers w)) self).

(** [self.root.after(delay, self.next_move)] *)
Definition after (delay : Z) : M t unit :=
  modify (fun self =>
    let w := root self in
    set_root (mkWidgets (start_button_enabled w) (pause_button_enabled w)
                        (pause_button_text w) (status_label w)
                        (error_dialogs w) (after_timers w ++ [delay])) self).

(** A method call on [self.game_state]; on [None] the attribute lookup
    fails. *)
Definition on_game_state {A : Type} (c : M GameState A) : M t A :=
  fun self =>
    match game_state self with
    | None => (Raised AttributeError, self)
    | Some gs => let (r, gs') := c gs in (r, set_game_state (Some gs') self)
    end.

Definition draw_puzzle : M t unit := ret tt.

Definition update_status : M t unit :=
  fun self =>
    match game_state self with
    | Some gs =>
        let remaining := total_moves gs - moves_done gs in
        config_status_label (MoveProgress (moves_done gs) (total_moves gs) remaining) self
    | None => config_status_label ReadyToStart self
    end.

Definition finish_solving : M t unit :=
  modify (set_is_solving false) ;;;
  modify (set_is_paused false) ;;;
  config_start_button true ;;;
  config_pause_button (Some false) "Pause" ;;;
  (fun self =>
     match game_state self with
     | Some gs =>
         (solved <- on_game_state GameState.is_solved ;;
          if solved : bool
          then config_status_label (SolvedIn (moves_done gs))
          else config_status_label SolvingStopped) self
     | None => config_status_label SolvingStopped self
     end).

Definition next_move : M t unit :=
  fun self =>
    if negb (is_solving self) || is_paused self then ret tt self
    else
      match move_generator self with
      | None => raise TypeError self
      | Some [] =>
          (* except StopIteration *)
          (modify (set_current_move None) ;;; finish_solving) self
      | Some (move :: rest) =>
          (modify (set_move_generator (Some rest)) ;;;
           modify (set_current_move (Some move)) ;;;
           (success <- on_game_state (GameState.execute_move move) ;;
            if success : bool then
              draw_puzzle ;;;
              update_status ;;;
              (solved <- on_game_state GameState.is_solved ;;
               if solved : bool then
                 modify (set_current_move None) ;;; finish_solving
               else
                 (fun self' => after (animation_speed self') self'))
            else
              showerror move ;;;
              modify (set_current_move None) ;;;
              finish_solving)) self
      end.

Definition toggle_pause : M t unit :=
  fun self =>
    if negb (is_solving self) then ret tt self
    else
      (modify (set_is_paused (negb (is_paused self))) ;;;
       (fun self' =>
          config_pause_button None
            (if is_paused self' then "Resume" else "Pause")%string self') ;;;
       (fun self' =>
          if negb (is_paused self') then next_move self' else ret tt self')) self.

End TowerOfHanoiGUI.

(** ** Notions used in the statements and proofs *)

#[global] Instance PegName_eq_dec : EqDecision PegName.
Proof. solve_decision. Defined.

(** The store after [pegs[k].disks] has become [l]. *)
Definition with_disks (k : PegName) (l : list Disk) (self : GameState) : GameState :=
  set_pegs (update_peg k (set_disks l (lookup_peg k (pegs self))) (pegs self)) self.

(** The store after [pegs[k].disks.pop()] and after [pegs[k].disks.append(d)]. *)
Definition popped (k : PegName) (self : GameState) : GameState :=
  with_disks k (removelast (disks_on k self)) self.

Definition pushed (k : PegName) (d : Disk) (self : GameState) : GameState :=
  with_disks k (disks_on k self ++ [d]) self.

Definition counted (self : GameState) : GameState :=
  set_current_move (current_move self + 1) self.

(** What the three guards of [execute_move] let through. *)
Definition passes_guards (move : Move) (self : GameState) (d : Disk) : Prop :=
  last (disks_on (from_peg move) self) = Some d /\
  size d = disk_size move /\
  forall top, last (disks_on (to_peg move) self) = Some top -> size d <= size top.

(** The three outcomes of [execute_move]: a call is refused and changes
    nothing; or it moves the top disk [d] of the source peg and counts the
    move; or [Peg.push] raises after the pop. *)
Inductive step_outcome (move : Move) (self : GameState) : Prop :=
| step_refused :
    GameState.execute_move move self = (Returned false, self) ->
    step_outcome move self
| step_moved d :
    passes_guards move self d ->
    (forall top, last (disks_on (to_peg move) (popped (from_peg move) self)) = Some top ->
                 size d < size top) ->
    GameState.execute_move move self =
      (Returned true, counted (pushed (to_peg move) d (popped (from_peg move) self))) ->
    step_outcome move self
| step_raised d top :
    passes_guards move self d ->
    last (disks_on (to_peg move) (popped (from_peg move) self)) = Some top ->
    size top <= size d ->
    GameState.execute_move move self = (Raised ValueError, popped (from_peg move) self) ->
    step_outcome move self.

(** Bottom to top, each disk is smaller than the one below it. *)
Fixpoint strictly_decreasing (l : list Z) : Prop :=
  match l with
  | a :: (b :: _) as tl => b < a /\ strictly_decreasing tl
  | _ => True
  end.

Definition pegs_sorted (self : GameState) : Prop :=
  forall k, strictly_decreasing (sizes k self).

(** No size occurs on two pegs. *)
Definition pegs_disjoint (self : GameState) : Prop :=
  forall k k' z, k <> k' -> In z (sizes k self) -> In z (sizes k' self) -> False.

(** The disks that the loop of [__init__] and [reset] creates. *)
Definition new_disks (colours : list string) (n : Z) : list Disk :=
  map (fun i => Disk_init i (GameState.colour_of colours i)) (range_down n).

(** [GameState(n)] in closed form. *)
Definition fresh (n : Z) : GameState :=
  with_disks SOURCE (new_disks palette n) (GameState.blank n).

(** The states a caller can bring a [GameState(n)] into through
    [execute_move], whatever each call's outcome. *)
Inductive reachable (n : Z) : GameState -> Prop :=
| reachable_init self :
    GameState.init n = Returned self -> reachable n self
| reachable_step self move :
    reachable n self -> reachable n (snd (GameState.execute_move move self)).

Definition same_frame (a b : GameState) : Prop :=
  num_disks a = num_disks b /\ total_moves a = total_moves b /\
  colours a = colours b /\
  forall k, name (lookup_peg k (pegs a)) = name (lookup_peg k (pegs b)).

(** Number of moves of [l] that carry disk [k]. *)
Definition count_disk (k : Z) (l : list Move) : nat :=
  length (List.filter (fun m => disk_size m =? k) l).

(** Nothing in reach of a tower of [n] disks is as small as the tower. *)
Definition above (n : Z) (l : list Disk) : Prop :=
  forall top, last l = Some top -> n < size top.

(** What a list of moves has to do to carry a tower of [n] disks from the
    top of peg [s] to the top of peg [d], with [a] as the spare peg. *)
Definition moves_tower (n : Z) (s d a : PegName) (l : list Move) : Prop :=
  s <> d -> s <> a -> d <> a ->
  forall self bottom tower,
    disks_on s self = bottom ++ tower ->
    map size tower = range_down n ->
    above n bottom -> above n (disks_on d self) -> above n (disks_on a self) ->
    exists self',
      apply_moves l self = (repeat (Returned true) (length l), self') /\
      disks_on s self' = bottom /\
      disks_on d self' = disks_on d self ++ tower /\
      disks_on a self' = disks_on a self /\
      current_move self' = current_move self + Z.of_nat (length l) /\
      same_frame self' self.

(** Disk [k] of a tower of [n] is moved [2^(n-k)] times, any other size never. *)
Definition counts_ok (n : Z) (l : list Move) : Prop :=
  forall k, Z.of_nat (count_disk k l) =
            if decide (1 <= k <= n) then 2 ^ (n - k) else 0.

(** A call has recovered when control comes back to the caller with a
    value; a raised exception has not. *)
Definition recovered {S A : Type} (r : outcome A * S) : Prop :=
  exists v, fst r = Returned v.

(** Fields that only [next] and [execute_move] may change. *)
Definition playback (self : TowerOfHanoiGUI.t) : option GameState * option (list Move) :=
  (TowerOfHanoiGUI.game_state self, TowerOfHanoiGUI.move_generator self).

(** A controller paused after the first move of a three-disk run. *)
Definition paused_after_first_move : TowerOfHanoiGUI.t :=
  {| TowerOfHanoiGUI.game_state :=
       Some (snd (GameState.execute_move (mkMove 1 SOURCE DESTINATION) (fresh 3)));
     TowerOfHanoiGUI.move_generator :=
       Some [ mkMove 2 SOURCE AUXILIARY; mkMove 1 DESTINATION AUXILIARY;
              mkMove 3 SOURCE DESTINATION; mkMove 1 AUXILIARY SOURCE;
              mkMove 2 AUXILIARY DESTINATION; mkMove 1 SOURCE DESTINATION ];
     TowerOfHanoiGUI.is_solving := true;
     TowerOfHanoiGUI.is_paused := true;
     TowerOfHanoiGUI.animation_speed := 500;
     TowerOfHanoiGUI.current_move := Some (mkMove 1 SOURCE DESTINATION);
     TowerOfHanoiGUI.root :=
       {| TowerOfHanoiGUI.start_button_enabled := false;
          TowerOfHanoiGUI.pause_button_enabled := true;
          TowerOfHanoiGUI.pause_button_text := "Resume";
          TowerOfHanoiGUI.status_label := TowerOfHanoiGUI.MoveProgress 1 7 6;
          TowerOfHanoiGUI.error_dialogs := [];
          TowerOfHanoiGUI.after_timers := [500] |} |}.

(** ** The rest of the program *)

(** All disks of the puzzle, peg by peg. *)
Definition all_disks (self : GameState) : list Disk :=
  disks_on SOURCE self ++ disks_on AUXILIARY self ++ disks_on DESTINATION self.

(** Number of calls, among those recorded, that returned [True]. *)
Definition successes (results : list (outcome bool)) : nat :=
  length (List.filter (fun r => match r with Returned true => true | _ => false end)
                      results).

(** Every move names two different pegs among [s], [d] and [a], and a disk
    of a tower of [n]. *)
Definition proper_move (n : Z) (s d a : PegName) (move : Move) : Prop :=
  from_peg move <> to_peg move /\
  1 <= disk_size move <= n /\
  (from_peg move = s \/ from_peg move = d \/ from_peg move = a) /\
  (to_peg move = s \/ to_peg move = d \/ to_peg move = a).

(** While a tower is being carried from [s] to [d], every peg keeps the
    disks it had below the tower; and as long as moves remain, a disk of the
    tower is still on [s] or on [a]. *)
Definition carries_tower (s d a : PegName) (l : list Move)
           (self : GameState) (bottom : list Disk) : Prop :=
  forall done rest, l = done ++ rest ->
    let now := snd (apply_moves done self) in
    exists on_s on_d on_a,
      disks_on s now = bottom ++ on_s /\
      disks_on d now = disks_on d self ++ on_d /\
      disks_on a now = disks_on a self ++ on_a /\
      (rest <> [] -> on_s <> [] \/ on_a <> []).

Definition tower_in_transit (n : Z) (s d a : PegName) (l : list Move) : Prop :=
  s <> d -> s <> a -> d <> a ->
  forall self bottom tower,
    disks_on s self = bottom ++ tower ->
    map size tower = range_down n ->
    above n bottom -> above n (disks_on d self) -> above n (disks_on a self) ->
    carries_tower s d a l self bottom.

(** *** [test_algorithm.py] *)

(** The inner loop of the test: the moves are executed in order and the
    loop is left with [False] at the first one that is refused. *)
Fixpoint execute_in_order (moves : list Move) : M GameState bool :=
  match moves with
  | [] => ret true
  | move :: rest =>
      success <- GameState.execute_move move ;;
      if success : bool then execute_in_order rest else ret false
  end.

(** How a run of the test ends: it returns [True] or [False], its [assert]
    fails, an exception of the program escapes, or the depth bound of the
    generator is hit. *)
Inductive test_result : Type :=
| Passed
| Failed
| AssertionFailed
| Escaped (e : exn)
| Unfinished.

(** One iteration of the outer loop; [Passed] stands for reaching its end. *)
Definition test_disks (fuel : nat) (n : Z) : test_result :=
  match GameState.init n with
  | Raised e => Escaped e
  | Returned game_state =>
      match hanoi_solver fuel n SOURCE DESTINATION AUXILIARY with
      | None => Unfinished
      | Some moves =>
          if negb (Z.of_nat (length moves) =? 2 ^ n - 1) then AssertionFailed
          else
            match execute_in_order moves game_state with
            | (Raised e, _) => Escaped e
            | (Returned false, _) => Failed
            | (Returned true, game_state') =>
                match GameState.is_solved game_state' with
                | (Returned true, _) => Passed
                | (Returned false, _) => Failed
                | (Raised e, _) => Escaped e
                end
            end
      end
  end.

Fixpoint test_each (fuel : nat) (ns : list Z) : test_result :=
  match ns with
  | [] => Passed
  | n :: ns' =>
      match test_disks fuel n with
      | Passed => test_each fuel ns'
      | r => r
      end
  end.

Definition test_hanoi_algorithm (fuel : nat) : test_result :=
  test_each fuel [3; 4; 5; 20].

(** *** The highlight of [draw_puzzle] *)

(** [enumerate(l)] *)
Definition enumerate {A : Type} (l : list A) : list (nat * A) :=
  combine (seq 0 (length l)) l.

(** The test [draw_puzzle] makes for each disk it draws: is this the disk
    of [self.current_move]? *)
Definition is_moving (current_move : option Move) (peg_name : PegName)
           (peg : Peg) (j : nat) (disk : Disk) : bool :=
  match current_move with
  | None => false
  | Some move =>
      (size disk =? disk_size move) &&
      (Z.of_nat j =? Z.of_nat (length (disks peg)) - 1) &&
      bool_decide (peg_name = from_peg move)
  end.

(** The disks that [draw_puzzle] outlines in red, as (peg, index) pairs in
    the order in which they are drawn. *)
Definition highlighted (current_move : option Move) (self : GameState)
  : list (PegName * nat) :=
  flat_map
    (fun peg_name =>
       let peg := lookup_peg peg_name (pegs self) in
       map (fun jd => (peg_name, fst jd))
           (List.filter (fun jd => is_moving current_move peg_name peg (fst jd) (snd jd))
                        (enumerate (disks peg))))
    [SOURCE; AUXILIARY; DESTINATION].

(** *** Timers *)

(** The event loop runs a callback registered with [root.after]: the timer
    is gone from the pending ones and [next_move] is called.  The oldest
    pending timer is taken; with nothing pending nothing happens. *)
Definition fire_timer : M TowerOfHanoiGUI.t unit :=
  fun self =>
    let w := TowerOfHanoiGUI.root self in
    match TowerOfHanoiGUI.after_timers w with
    | [] => ret tt self
    | _ :: pending =>
        (modify (TowerOfHanoiGUI.set_root
                   (TowerOfHanoiGUI.mkWidgets
                      (TowerOfHanoiGUI.start_button_enabled w)
                      (TowerOfHanoiGUI.pause_button_enabled w)
                      (TowerOfHanoiGUI.pause_button_text w)
                      (TowerOfHanoiGUI.status_label w)
                      (TowerOfHanoiGUI.error_dialogs w) pending)) ;;;
         TowerOfHanoiGUI.next_move) self
    end.

Fixpoint fire_timers (k : nat) : M TowerOfHanoiGUI.t unit :=
  match k with
  | O => ret tt
  | S k' => fire_timer ;;; fire_timers k'
  end.

(** *** Start, reset and speed

    The remaining methods of [TowerOfHanoiGUI] read two Tk variables, the
    disk count and the speed; the window is the controller together with
    them and with the input-error dialogs shown.  [int] stands for Python's
    [int()] on a string, [None] being its [ValueError]. *)
Module Controls.

Record t : Type := mkWindow {
  gui : TowerOfHanoiGUI.t;
  disk_count_var : string;
  speed_var : string;
  input_errors : list string
}.

Definition set_gui (g : TowerOfHanoiGUI.t) (self : t) : t :=
  mkWindow g (disk_count_var self) (speed_var self) (input_errors self).

Definition set_disk_count_var (v : string) (self : t) : t :=
  mkWindow (gui self) v (speed_var self) (input_errors self).

(** [messagebox.showerror("Invalid Input", text)] *)
Definition showerror (text : string) : M t unit :=
  modify (fun self =>
    mkWindow (gui self) (disk_count_var self) (speed_var self)
             (input_errors self ++ [text])).

(** A method of the controller called on the window's own controller. *)
Definition on_gui {A : Type} (c : M TowerOfHanoiGUI.t A) : M t A :=
  fun self => let (r, g) := c (gui self) in (r, set_gui g self).

(** [self.game_state = GameState(num_disks)] *)
Definition new_game (num_disks : Z) : M t unit :=
  match GameState.init num_disks with
  | Returned gs => on_gui (modify (TowerOfHanoiGUI.set_game_state (Some gs)))
  | Raised e => raise e
  end.

Definition speed_map : gmap string Z :=
  <["Slow"%string := 1000]> (<["Normal"%string := 500]> (<["Fast"%string := 100]> ∅)).

(** [update_animation_speed]: [speed_map.get(self.speed_var.get(), 500)] *)
Definition update_animation_speed : M t unit :=
  fun self =>
    let speed := default 500 (speed_map !! speed_var self) in
    on_gui (modify (fun g =>
      TowerOfHanoiGUI.mkGUI (TowerOfHanoiGUI.game_state g)
        (TowerOfHanoiGUI.move_generator g) (TowerOfHanoiGUI.is_solving g)
        (TowerOfHanoiGUI.is_paused g) speed (TowerOfHanoiGUI.current_move g)
        (TowerOfHanoiGUI.root g))) self.

Section WithInt.

Variable int : string -> option Z.

Definition start_solving : M t unit :=
  fun self =>
    let g := gui self in
    let go := on_gui TowerOfHanoiGUI.draw_puzzle ;;; on_gui TowerOfHanoiGUI.next_move in
    if TowerOfHanoiGUI.is_solving g && negb (TowerOfHanoiGUI.is_paused g)
    then ret tt self
    else if negb (TowerOfHanoiGUI.is_solving g) then
      match int (disk_count_var self) with
      | Some num_disks =>
          if negb ((3 <=? num_disks) && (num_disks <=? 10))
          then showerror "Number of disks must be between 3 and 10" self
          else
            (new_game num_disks ;;;
             on_gui (modify (TowerOfHanoiGUI.set_move_generator
                       (hanoi_solver (Z.to_nat num_disks) num_disks
                                     SOURCE DESTINATION AUXILIARY))) ;;;
             on_gui (modify (TowerOfHanoiGUI.set_is_solving true)) ;;;
             on_gui (modify (TowerOfHanoiGUI.set_is_paused false)) ;;;
             on_gui (TowerOfHanoiGUI.config_start_button false) ;;;
             on_gui (fun g' =>
                       TowerOfHanoiGUI.config_pause_button (Some true)
                         (TowerOfHanoiGUI.pause_button_text (TowerOfHanoiGUI.root g')) g') ;;;
             go) self
      | None => showerror "Please enter a valid number" self
      end
    else if TowerOfHanoiGUI.is_paused g then
      (on_gui (modify (TowerOfHanoiGUI.set_is_paused false)) ;;;
       on_gui (TowerOfHanoiGUI.config_pause_button None "Pause") ;;;
       go) self
    else go self.

Definition reset_puzzle : M t unit :=
  on_gui (modify (TowerOfHanoiGUI.set_is_solving false)) ;;;
  on_gui (modify (TowerOfHanoiGUI.set_is_paused false)) ;;;
  on_gui (modify (TowerOfHanoiGUI.set_current_move None)) ;;;
  (num_disks <- (fun self =>
                   match int (disk_count_var self) with
                   | Some num_disks =>
                       if negb ((3 <=? num_disks) && (num_disks <=? 10))
                       then (modify (set_disk_count_var "3") ;;; ret 3) self
                       else ret num_disks self
                   | None => (modify (set_disk_count_var "3") ;;; ret 3) self
                   end) ;;
   (new_game num_disks ;;;
    on_gui (TowerOfHanoiGUI.config_start_button true) ;;;
    on_gui (TowerOfHanoiGUI.config_pause_button (Some false) "Pause") ;;;
    on_gui TowerOfHanoiGUI.draw_puzzle ;;;
    on_gui TowerOfHanoiGUI.update_status)).

End WithInt.

End Controls.

(** *** States used in examples *)

(** A stand-in for Python's [int] on the texts the examples use. *)
Definition int_sample (text : string) : option Z :=
  if String.eqb text "3" then Some 3
  else if String.eqb text "12" then Some 12
  else None.

(** The controller with a three-disk run under way: the first move played,
    its successor scheduled. *)
Definition running_after_first_move : TowerOfHanoiGUI.t :=
  {| TowerOfHanoiGUI.game_state :=
       Some (snd (GameState.execute_move (mkMove 1 SOURCE DESTINATION) (fresh 3)));
     TowerOfHanoiGUI.move_generator :=
       Some [ mkMove 2 SOURCE AUXILIARY; mkMove 1 DESTINATION AUXILIARY;
              mkMove 3 SOURCE DESTINATION; mkMove 1 AUXILIARY SOURCE;
              mkMove 2 AUXILIARY DESTINATION; mkMove 1 SOURCE DESTINATION ];
     TowerOfHanoiGUI.is_solving := true;
     TowerOfHanoiGUI.is_paused := false;
     TowerOfHanoiGUI.animation_speed := 500;
     TowerOfHanoiGUI.current_move := Some (mkMove 1 SOURCE DESTINATION);
     TowerOfHanoiGUI.root :=
       {| TowerOfHanoiGUI.start_button_enabled := false;
          TowerOfHanoiGUI.pause_button_enabled := true;
          TowerOfHanoiGUI.pause_button_text := "Pause";
          TowerOfHanoiGUI.status_label := TowerOfHanoiGUI.MoveProgress 1 7 6;
          TowerOfHanoiGUI.error_dialogs := [];
          TowerOfHanoiGUI.after_timers := [500] |} |}.

(** The controller before anything was started. *)
Definition idle_gui : TowerOfHanoiGUI.t :=
  {| TowerOfHanoiGUI.game_state := Some (fresh 3);
     TowerOfHanoiGUI.move_generator := None;
     TowerOfHanoiGUI.is_solving := false;
     TowerOfHanoiGUI.is_paused := false;
     TowerOfHanoiGUI.animation_speed := 500;
     TowerOfHanoiGUI.current_move := None;
     TowerOfHanoiGUI.root :=
       {| TowerOfHanoiGUI.start_button_enabled := true;
          TowerOfHanoiGUI.pause_button_enabled := false;
          TowerOfHanoiGUI.pause_button_text := "Pause";
          TowerOfHanoiGUI.status_label := TowerOfHanoiGUI.MoveProgress 0 7 7;
          TowerOfHanoiGUI.error_dialogs := [];
          TowerOfHanoiGUI.after_timers := [] |} |}.

Definition window (g : TowerOfHanoiGUI.t) (disk_count speed : string) : Controls.t :=
  {| Controls.gui := g; Controls.disk_count_var := disk_count;
     Controls.speed_var := speed; Controls.input_errors := [] |}.

(** * Properties *)

(** Splits every [decide] on peg names and closes the impossible cases. *)
Ltac peg_cases := repeat case_decide; try congruence.

(** ** The dictionary of pegs *)

Lemma lookup_update_eq k p d : lookup_peg k (update_peg k p d) = p.
Proof. by destruct k. Qed.

Lemma lookup_update_ne k k' p d :
  k <> k' -> lookup_peg k' (update_peg k p d) = lookup_peg k' d.
Proof. by destruct k, k'. Qed.

Lemma update_lookup k d : update_peg k (lookup_peg k d) d = d.
Proof. by destruct k, d. Qed.

Lemma set_disks_disks p : set_disks (disks p) p = p.
Proof. by destruct p. Qed.

Lemma set_pegs_pegs self : set_pegs (pegs self) self = self.
Proof. by destruct self. Qed.

Lemma at_peg_unchanged k self :
  set_pegs (update_peg k (lookup_peg k (pegs self)) (pegs self)) self = self.
Proof. by rewrite update_lookup, set_pegs_pegs. Qed.

Lemma with_disks_again k l1 l2 self :
  with_disks k l2 (with_disks k l1 self) = with_disks k l2 self.
Proof. by destruct k. Qed.

Lemma with_disks_same k self : with_disks k (disks_on k self) self = self.
Proof. unfold with_disks, disks_on. by rewrite set_disks_disks, at_peg_unchanged. Qed.

Lemma disks_on_with_disks k k' l self :
  disks_on k' (with_disks k l self) =
  if decide (k = k') then l else disks_on k' self.
Proof.
  unfold disks_on, with_disks; simpl. case_decide as E.
  - subst. by rewrite lookup_update_eq.
  - by rewrite lookup_update_ne.
Qed.

Lemma disks_on_popped k k' self :
  disks_on k' (popped k self) =
  if decide (k = k') then removelast (disks_on k self) else disks_on k' self.
Proof. apply disks_on_with_disks. Qed.

Lemma disks_on_pushed k k' d self :
  disks_on k' (pushed k d self) =
  if decide (k = k') then disks_on k self ++ [d] else disks_on k' self.
Proof. apply disks_on_with_disks. Qed.

Lemma disks_on_counted k self : disks_on k (counted self) = disks_on k self.
Proof. reflexivity. Qed.

Lemma is_empty_last {A} (l : list A) :
  Nat.eqb (length l) 0 = match last l with Some _ => false | None => true end.
Proof.
  destruct l as [|a l]; [done|]. simpl length.
  destruct (last (a :: l)) eqn:E; [done|]. by apply last_None in E.
Qed.

(** ** The peg methods seen from the game state *)

Lemma at_peg_is_empty k self :
  at_peg k Peg.is_empty self =
  (Returned (match last (disks_on k self) with Some _ => false | None => true end), self).
Proof.
  unfold at_peg, Peg.is_empty. by rewrite at_peg_unchanged, is_empty_last.
Qed.

Lemma at_peg_peek k self :
  at_peg k Peg.peek self = (Returned (last (disks_on k self)), self).
Proof. unfold at_peg, Peg.peek. by rewrite at_peg_unchanged. Qed.

Lemma at_peg_size k self :
  at_peg k Peg.size self = (Returned (Z.of_nat (length (disks_on k self))), self).
Proof. unfold at_peg, Peg.size. by rewrite at_peg_unchanged. Qed.

Lemma at_peg_pop k self :
  at_peg k Peg.pop self =
  match last (disks_on k self) with
  | Some top => (Returned (Some top), popped k self)
  | None => (Returned None, self)
  end.
Proof.
  unfold at_peg, Peg.pop, disks_on.
  destruct (last _); [done|]. by rewrite at_peg_unchanged.
Qed.

Lemma at_peg_push k d self :
  at_peg k (Peg.push d) self =
  match last (disks_on k self) with
  | Some top =>
      if size d >=? size top then (Raised ValueError, self)
      else (Returned tt, pushed k d self)
  | None => (Returned tt, pushed k d self)
  end.
Proof.
  unfold at_peg, Peg.push, disks_on, raise, modify.
  destruct (last _); [|done].
  destruct (_ >=? _); [|done]. by rewrite at_peg_unchanged.
Qed.

(** ** [execute_move], branch by branch *)

Lemma execute_move_from_empty move self :
  disks_on (from_peg move) self = [] ->
  GameState.execute_move move self = (Returned false, self).
Proof.
  intros E. unfold GameState.execute_move, bind.
  by rewrite at_peg_is_empty, E.
Qed.

Lemma execute_move_mismatch move self d :
  last (disks_on (from_peg move) self) = Some d ->
  size d <> disk_size move ->
  GameState.execute_move move self = (Returned false, self).
Proof.
  intros E N. unfold GameState.execute_move, bind.
  rewrite at_peg_is_empty, E, at_peg_peek, E.
  by destruct (Z.eqb_spec (size d) (disk_size move)).
Qed.

Lemma execute_move_blocked move self d top :
  last (disks_on (from_peg move) self) = Some d ->
  last (disks_on (to_peg move) self) = Some top ->
  size top < size d ->
  GameState.execute_move move self = (Returned false, self).
Proof.
  intros E T L. unfold GameState.execute_move, bind.
  rewrite at_peg_is_empty, E, at_peg_peek, E.
  destruct (negb _); [done|].
  rewrite at_peg_is_empty, T, at_peg_peek, T. unfold ret.
  by destruct (Z.ltb_spec (size top) (size d)); [|lia].
Qed.

Lemma execute_move_passed move self d :
  passes_guards move self d ->
  GameState.execute_move move self =
  match at_peg (to_peg move) (Peg.push d) (popped (from_peg move) self) with
  | (Returned _, self') => (Returned true, counted self')
  | (Raised e, self') => (Raised e, self')
  end.
Proof.
  intros (E & S & T). unfold GameState.execute_move, bind.
  rewrite at_peg_is_empty, E, at_peg_peek, E.
  destruct (Z.eqb_spec (size d) (disk_size move)); [change (negb true) with false; cbv beta iota|done].
  rewrite at_peg_is_empty.
  destruct (last (disks_on (to_peg move) self)) as [top|] eqn:Et.
  - rewrite at_peg_peek, Et. unfold ret.
    destruct (Z.ltb_spec (size top) (size d)); [specialize (T _ eq_refl); lia|].
    rewrite at_peg_pop, E.
    by destruct (at_peg _ _ _) as [[[]|] ?].
  - unfold ret. rewrite at_peg_pop, E.
    by destruct (at_peg _ _ _) as [[[]|] ?].
Qed.

(** Every call falls in one of the two classes. *)
Lemma execute_move_cases move self :
  GameState.execute_move move self = (Returned false, self) \/
  exists d, passes_guards move self d.
Proof.
  destruct (last (disks_on (from_peg move) self)) as [d|] eqn:E.
  - destruct (decide (size d = disk_size move)) as [S|S].
    + destruct (last (disks_on (to_peg move) self)) as [top|] eqn:T.
      * destruct (decide (size top < size d)).
        -- left. eauto using execute_move_blocked.
        -- right. exists d. split; [done|split; [done|]].
           intros top' H. rewrite T in H. injection H as <-. lia.
      * right. exists d. split; [done|split; [done|]].
           intros top' H. by rewrite T in H.
    + left. eauto using execute_move_mismatch.
  - left. apply execute_move_from_empty. by apply last_None.
Qed.

(** ** Strictly decreasing lists *)

Lemma snoc_view {A} (l : list A) a : last l = Some a -> l = removelast l ++ [a].
Proof. intros [l' ->]%last_Some. by rewrite removelast_last. Qed.

Lemma last_map {A B} (f : A -> B) (l : list A) :
  last (map f l) = option_map f (last l).
Proof.
  induction l as [|a [|b l] IH]; [done..|].
  change (last (map f (b :: l)) = option_map f (last (b :: l))). apply IH.
Qed.

Lemma strictly_decreasing_snoc l z :
  strictly_decreasing (l ++ [z]) <->
  strictly_decreasing l /\ forall t, last l = Some t -> z < t.
Proof.
  induction l as [|a [|b l] IH].
  - simpl. intuition discriminate.
  - simpl. split.
    + intros [? _]. split; [done|]. by intros ? [= <-].
    + intros [_ H]. split; [|done]. by apply H.
  - change (b < a /\ strictly_decreasing ((b :: l) ++ [z]) <->
            (b < a /\ strictly_decreasing (b :: l)) /\
            forall t, last (b :: l) = Some t -> z < t).
    tauto.
Qed.

Lemma strictly_decreasing_init l z :
  strictly_decreasing (l ++ [z]) -> strictly_decreasing l.
Proof. by intros [? _]%strictly_decreasing_snoc. Qed.

Lemma strictly_decreasing_above l z t :
  strictly_decreasing (l ++ [z]) -> In t l -> z < t.
Proof.
  revert z. induction l as [|a l IH] using rev_ind; [done|].
  intros z [Hl Hz]%strictly_decreasing_snoc [Hin|[->|[]]]%in_app_or.
  - specialize (Hz a (last_snoc _ _)). specialize (IH a Hl Hin). lia.
  - apply Hz, last_snoc.
Qed.

(** ** Sizes on the pegs after a pop and after a push *)

Lemma last_sizes k self :
  last (sizes k self) = option_map size (last (disks_on k self)).
Proof. apply last_map. Qed.

Lemma sizes_pushed k k' d self :
  sizes k' (pushed k d self) =
  if decide (k = k') then sizes k self ++ [size d] else sizes k' self.
Proof.
  unfold sizes. fold (disks_on k' (pushed k d self)).
  rewrite disks_on_pushed. case_decide; [|done].
  by rewrite map_app.
Qed.

Lemma sizes_popped_other k k' self :
  k <> k' -> sizes k' (popped k self) = sizes k' self.
Proof.
  intros N. unfold sizes. fold (disks_on k' (popped k self)).
  rewrite disks_on_popped. by case_decide.
Qed.

Lemma sizes_popped_top k d self :
  last (disks_on k self) = Some d ->
  sizes k self = sizes k (popped k self) ++ [size d].
Proof.
  intros E. unfold sizes at 2. fold (disks_on k (popped k self)).
  rewrite disks_on_popped. case_decide; [|done].
  unfold sizes. fold (disks_on k self).
  rewrite (snoc_view _ _ E) at 1. by rewrite map_app.
Qed.

Lemma sizes_counted k self : sizes k (counted self) = sizes k self.
Proof. reflexivity. Qed.

(** ** The outcomes of [execute_move] *)

Lemma execute_move_outcome move self : step_outcome move self.
Proof.
  destruct (execute_move_cases move self) as [R|[d G]]; [by apply step_refused|].
  pose proof (execute_move_passed _ _ _ G) as E. rewrite at_peg_push in E.
  destruct (last (disks_on (to_peg move) (popped (from_peg move) self)))
    as [top|] eqn:T.
  - destruct (Z.geb_spec (size d) (size top)).
    + by eapply step_raised; eauto; lia.
    + eapply step_moved; eauto.
      intros top' Ht. rewrite T in Ht. injection Ht as <-. lia.
  - eapply step_moved; eauto. intros top' Ht. by rewrite T in Ht.
Qed.

(** The dead branches of the model, [peek()] and [pop()] answering [None]
    on a peg found non-empty, are never taken: the one exception that can
    leave [execute_move] is the [ValueError] of [Peg.push]. *)
Lemma execute_move_raises_only_ValueError move self e :
  fst (GameState.execute_move move self) = Raised e -> e = ValueError.
Proof.
  destruct (execute_move_outcome move self) as [E|d _ _ E|d top _ _ _ E];
    rewrite E; simpl; congruence.
Qed.

(** [execute_move] answers [False] exactly when the source peg is empty, or
    its top disk has not the size the move names, or the target peg's top
    disk is strictly smaller than the disk to move. *)
Lemma execute_move_false_iff move self :
  fst (GameState.execute_move move self) = Returned false <->
  disks_on (from_peg move) self = [] \/
  (exists d, last (disks_on (from_peg move) self) = Some d /\
             size d <> disk_size move) \/
  (exists d top, last (disks_on (from_peg move) self) = Some d /\
                 last (disks_on (to_peg move) self) = Some top /\
                 size top < size d).
Proof.
  split.
  - intros R.
    destruct (execute_move_cases move self) as [_|[d G]].
    + destruct (last (disks_on (from_peg move) self)) as [d|] eqn:F;
        [|left; by apply last_None].
      right. destruct (decide (size d = disk_size move)) as [S|S];
        [|left; by exists d].
      right. exists d.
      destruct (last (disks_on (to_peg move) self)) as [top|] eqn:T.
      * destruct (decide (size top < size d)) as [L|L]; [by exists top|].
        exfalso. revert R. rewrite (execute_move_passed _ _ d).
        -- by destruct (at_peg _ _ _) as [[[]|] ?].
        -- split; [done|]. split; [done|]. intros top' Ht.
           rewrite T in Ht. injection Ht as <-. lia.
      * exfalso. revert R. rewrite (execute_move_passed _ _ d).
        -- by destruct (at_peg _ _ _) as [[[]|] ?].
        -- split; [done|]. split; [done|]. intros top' Ht. by rewrite T in Ht.
    + exfalso. revert R. rewrite (execute_move_passed _ _ _ G).
      by destruct (at_peg _ _ _) as [[[]|] ?].
  - intros [E|[(d & F & S)|(d & top & F & T & L)]].
    + by rewrite execute_move_from_empty.
    + by rewrite (execute_move_mismatch _ _ d).
    + by rewrite (execute_move_blocked _ _ d top).
Qed.

(** ** The peg invariant *)

Lemma pegs_sorted_popped k self :
  pegs_sorted self -> pegs_sorted (popped k self).
Proof.
  intros H k'. destruct (decide (k = k')) as [<-|N].
  - destruct (last (disks_on k self)) as [d|] eqn:E.
    + specialize (H k). rewrite (sizes_popped_top _ _ _ E) in H.
      by apply strictly_decreasing_init in H.
    + apply last_None in E. unfold sizes. fold (disks_on k (popped k self)).
      rewrite disks_on_popped. case_decide; [|done]. by rewrite E.
  - rewrite sizes_popped_other by done. apply H.
Qed.

Lemma pegs_sorted_pushed k d self :
  pegs_sorted self ->
  (forall top, last (disks_on k self) = Some top -> size d < size top) ->
  pegs_sorted (pushed k d self).
Proof.
  intros H T k'. rewrite sizes_pushed. case_decide; [|apply H].
  apply strictly_decreasing_snoc. split; [apply H|].
  intros t. rewrite last_sizes. destruct (last (disks_on k self)); [|done].
  intros [= <-]. by apply T.
Qed.

Lemma pegs_sorted_step move self :
  pegs_sorted self -> pegs_sorted (snd (GameState.execute_move move self)).
Proof.
  intros H. destruct (execute_move_outcome move self) as [E|d G T E|d top G T L E];
    rewrite E; simpl.
  - done.
  - intros k. rewrite sizes_counted. revert k.
    by apply pegs_sorted_pushed; [apply pegs_sorted_popped|].
  - by apply pegs_sorted_popped.
Qed.

Lemma In_last_sizes k d self :
  last (disks_on k self) = Some d -> In (size d) (sizes k self).
Proof.
  intros E. rewrite (sizes_popped_top _ _ _ E). apply in_or_app. right. by left.
Qed.

(** Where a size can sit after the top disk [d] of [from] went to [to]. *)
Lemma In_sizes_moved from to d self k z :
  from <> to ->
  pegs_sorted self ->
  last (disks_on from self) = Some d ->
  In z (sizes k (pushed to d (popped from self))) ->
  (k = to /\ z = size d) \/ (In z (sizes k self) /\ (k = from -> z <> size d)).
Proof.
  intros N S E. rewrite sizes_pushed. case_decide as Ek.
  - subst k. rewrite sizes_popped_other by done.
    intros [I|[<-|[]]]%in_app_or; [right|by left].
    split; [done|]. intros ->. done.
  - intros I. right. destruct (decide (from = k)) as [<-|Nk].
    + specialize (S from). rewrite (sizes_popped_top _ _ _ E) in S |- *.
      pose proof (strictly_decreasing_above _ _ _ S I).
      split; [|lia]. apply in_or_app. by left.
    + rewrite sizes_popped_other in I by done. by split.
Qed.

Lemma sizes_moved_same k k' d self :
  last (disks_on k self) = Some d ->
  sizes k' (pushed k d (popped k self)) = sizes k' self.
Proof.
  intros E. rewrite sizes_pushed. case_decide as Ek.
  - subst k'. by rewrite <- sizes_popped_top.
  - by rewrite sizes_popped_other.
Qed.

Lemma pegs_disjoint_popped k self :
  pegs_disjoint self -> pegs_disjoint (popped k self).
Proof.
  assert (forall k' z, In z (sizes k' (popped k self)) -> In z (sizes k' self)) as Sub.
  { intros k' z. destruct (decide (k = k')) as [<-|N].
    - destruct (last (disks_on k self)) as [d|] eqn:E.
      + rewrite (sizes_popped_top _ _ _ E). intros. apply in_or_app. by left.
      + apply last_None in E. unfold sizes. fold (disks_on k (popped k self)).
        rewrite disks_on_popped. case_decide; [|done]. by rewrite E.
    - by rewrite sizes_popped_other. }
  intros D k1 k2 z N I1 I2. eapply D; eauto.
Qed.

Lemma pegs_disjoint_step move self :
  pegs_sorted self -> pegs_disjoint self ->
  pegs_disjoint (snd (GameState.execute_move move self)).
Proof.
  intros S D.
  destruct (execute_move_outcome move self) as [E|d (F & _ & _) _ E|d top G T L E];
    rewrite E; simpl; [done| |by apply pegs_disjoint_popped].
  destruct (decide (from_peg move = to_peg move)) as [Eq|N].
  - rewrite <- Eq. intros k k' z. rewrite !sizes_counted, !sizes_moved_same by done.
    apply D.
  - intros k k' z Nk. rewrite !sizes_counted.
    intros H1 H2. apply In_sizes_moved in H1, H2; try done.
    destruct H1 as [[-> Hz1]|[I1 F1]], H2 as [[-> Hz2]|[I2 F2]]; subst; try done.
    + apply (D (from_peg move) k' (size d)); [|by apply In_last_sizes|done].
      intros <-. by apply F2.
    + apply (D (from_peg move) k (size d)); [|by apply In_last_sizes|done].
      intros <-. by apply F1.
    + by apply (D k k' z).
Qed.

(** With sorted pegs that share no size, [Peg.push] cannot raise. *)
Lemma execute_move_returns move self :
  pegs_sorted self -> pegs_disjoint self ->
  exists b, fst (GameState.execute_move move self) = Returned b.
Proof.
  intros S D.
  destruct (execute_move_outcome move self) as [E|d _ _ E|d top (F & _ & G) T L E];
    [rewrite E; by eexists..|exfalso].
  destruct (decide (from_peg move = to_peg move)) as [Eq|N].
  - rewrite <- Eq in T. specialize (S (from_peg move)).
    rewrite (sizes_popped_top _ _ _ F) in S.
    apply In_last_sizes in T.
    pose proof (strictly_decreasing_above _ _ _ S T). lia.
  - rewrite disks_on_popped in T. case_decide; [done|].
    specialize (G _ T). assert (size top = size d) as Et by lia.
    apply In_last_sizes in T, F. rewrite Et in T. by eapply (D _ _ _ N).
Qed.

(** ** [range(n, 0, -1)] *)

Lemma range_down_nonpos n : n <= 0 -> range_down n = [].
Proof. intros H. unfold range_down. by replace (Z.to_nat n) with O by lia. Qed.

Lemma range_down_pos n : 1 <= n -> range_down n = n :: range_down (n - 1).
Proof.
  intros H. unfold range_down.
  replace (Z.to_nat n) with (S (Z.to_nat (n - 1))) by lia.
  cbn [seq map]. f_equal; [lia|].
  rewrite <- seq_shift, map_map. apply map_ext. intros k. lia.
Qed.

Lemma range_down_length n : 0 <= n -> Z.of_nat (length (range_down n)) = n.
Proof. intros H. unfold range_down. rewrite length_map, length_seq. lia. Qed.

(** Induction along [range_down]: below 1 the range is empty, from 1 on it
    is [n] followed by the range of [n - 1]. *)
Lemma range_down_ind (P : Z -> Prop) :
  (forall n, n <= 0 -> P n) ->
  (forall n, 1 <= n -> P (n - 1) -> P n) ->
  forall n, P n.
Proof.
  intros H0 HS n. remember (Z.to_nat n) as m eqn:Em.
  revert n Em. induction m as [|m IH]; intros n Em.
  - apply H0. lia.
  - apply HS; [lia|]. apply IH. lia.
Qed.

Lemma range_down_head n i : head (range_down n) = Some i -> i = n /\ 1 <= n.
Proof.
  destruct (decide (1 <= n)) as [H|H].
  - rewrite range_down_pos by done. by intros [= <-].
  - by rewrite range_down_nonpos by lia.
Qed.

Lemma strictly_decreasing_range_down n : strictly_decreasing (range_down n).
Proof.
  induction n as [n H|n H IH] using range_down_ind.
  - by rewrite range_down_nonpos.
  - rewrite range_down_pos by done.
    destruct (range_down (n - 1)) as [|i l] eqn:E; [done|].
    split; [|done].
    assert (head (range_down (n - 1)) = Some i) as Hh by by rewrite E.
    apply range_down_head in Hh. lia.
Qed.

(** ** The freshly constructed state *)

Lemma place_disks l : forall self,
  strictly_decreasing l ->
  (forall i top, head l = Some i -> last (disks_on SOURCE self) = Some top ->
                 i < size top) ->
  for_each l GameState.place_disk self =
  (Returned tt,
   with_disks SOURCE
     (disks_on SOURCE self ++
      map (fun i => Disk_init i (GameState.colour_of (colours self) i)) l) self).
Proof.
  induction l as [|i l IH]; intros self S T.
  - simpl. unfold ret. by rewrite app_nil_r, with_disks_same.
  - cbn [for_each]. unfold bind, GameState.place_disk at 1.
    rewrite at_peg_push.
    set (d := Disk_init i (GameState.colour_of (colours self) i)).
    assert (for_each l GameState.place_disk (pushed SOURCE d self) =
            (Returned tt,
             with_disks SOURCE
               (disks_on SOURCE self ++
                map (fun i => Disk_init i (GameState.colour_of (colours self) i))
                    (i :: l)) self)) as Go.
    { rewrite IH.
      - unfold pushed. rewrite with_disks_again, disks_on_with_disks.
        case_decide; [|done]. by rewrite <- app_assoc.
      - destruct l as [|j l]; [done|]. apply S.
      - intros j top' Hj. rewrite disks_on_pushed. case_decide; [|done].
        rewrite last_snoc. intros [= <-]. destruct l as [|j' l]; [done|].
        injection Hj as ->. apply S. }
    destruct (last (disks_on SOURCE self)) as [top|] eqn:E; [|done].
    specialize (T i top eq_refl eq_refl).
    by destruct (Z.geb_spec (size d) (size top)); [simpl in *; lia|].
Qed.

Lemma init_fresh n : GameState.init n = Returned (fresh n).
Proof.
  unfold GameState.init. rewrite place_disks.
  - done.
  - apply strictly_decreasing_range_down.
  - intros i top _. discriminate.
Qed.

Lemma sizes_new_disks cs n : map size (new_disks cs n) = range_down n.
Proof. unfold new_disks. rewrite map_map. simpl. apply map_id. Qed.

Lemma sizes_fresh n k :
  sizes k (fresh n) = match k with SOURCE => range_down n | _ => [] end.
Proof. destruct k; [|done..]. apply sizes_new_disks. Qed.

Lemma pegs_sorted_fresh n : pegs_sorted (fresh n).
Proof.
  intros k. rewrite sizes_fresh. destruct k; [|done..].
  apply strictly_decreasing_range_down.
Qed.

Lemma pegs_disjoint_fresh n : pegs_disjoint (fresh n).
Proof. intros k k' z N. rewrite !sizes_fresh. by destruct k, k'. Qed.

(** ** Reachable states *)

Lemma reachable_sorted_disjoint n self :
  reachable n self -> pegs_sorted self /\ pegs_disjoint self.
Proof.
  induction 1 as [self E|self move _ [S D]].
  - rewrite init_fresh in E. injection E as <-.
    split; [apply pegs_sorted_fresh|apply pegs_disjoint_fresh].
  - split; [by apply pegs_sorted_step|by apply pegs_disjoint_step].
Qed.

(** ** What [execute_move] never touches *)

Lemma same_frame_refl a : same_frame a a.
Proof. by repeat split. Qed.

Lemma same_frame_trans a b c : same_frame a b -> same_frame b c -> same_frame a c.
Proof.
  intros (? & ? & ? & E1) (? & ? & ? & E2).
  split; [congruence|]. split; [congruence|]. split; [congruence|].
  intros k. by rewrite E1.
Qed.

Lemma same_frame_with_disks k l self : same_frame (with_disks k l self) self.
Proof. repeat split. intros k'. by destruct k, k'. Qed.

Lemma same_frame_counted self : same_frame (counted self) self.
Proof. by repeat split. Qed.

Lemma same_frame_step move self :
  same_frame (snd (GameState.execute_move move self)) self.
Proof.
  destruct (execute_move_outcome move self) as [E|d _ _ E|d top _ _ _ E];
    rewrite E; simpl.
  - apply same_frame_refl.
  - eapply same_frame_trans; [apply same_frame_counted|].
    eapply same_frame_trans; apply same_frame_with_disks.
  - apply same_frame_with_disks.
Qed.

Lemma reachable_frame n self : reachable n self -> same_frame self (fresh n).
Proof.
  induction 1 as [self E|self move _ IH].
  - rewrite init_fresh in E. injection E as <-. apply same_frame_refl.
  - eapply same_frame_trans; [apply same_frame_step|done].
Qed.

(** ** [reset] *)

Lemma reset_result self :
  GameState.reset self =
  (Returned tt,
   set_current_move 0
     (with_disks SOURCE (new_disks (colours self) (num_disks self))
        (with_disks DESTINATION [] (with_disks AUXILIARY [] (with_disks SOURCE [] self))))).
Proof.
  unfold GameState.reset, bind. cbn [for_each].
  unfold bind, at_peg, modify, ret. cbn [fst snd].
  fold (with_disks SOURCE [] self).
  fold (with_disks AUXILIARY [] (with_disks SOURCE [] self)).
  fold (with_disks DESTINATION [] (with_disks AUXILIARY [] (with_disks SOURCE [] self))).
  rewrite place_disks.
  - done.
  - apply strictly_decreasing_range_down.
  - intros i top _. discriminate.
Qed.

Lemma reset_to_fresh n self :
  same_frame self (fresh n) -> GameState.reset self = (Returned tt, fresh n).
Proof.
  intros (En & Et & Ec & Ek). rewrite reset_result. f_equal.
  pose proof (Ek SOURCE) as Es. pose proof (Ek AUXILIARY) as Ea.
  pose proof (Ek DESTINATION) as Ed.
  destruct self as [nd tm cm [[ns ds] [na da] [nd' dd]] cs].
  simpl in *. by subst.
Qed.

(** ** The generator *)

(** The generator never returns for [n <= 0]: every depth bound is hit. *)
Lemma hanoi_solver_diverges fuel : forall n source destination auxiliary,
  n <= 0 -> hanoi_solver fuel n source destination auxiliary = None.
Proof.
  induction fuel as [|fuel IH]; intros n s d a H; [done|].
  cbn [hanoi_solver]. destruct (Z.eqb_spec n 1); [lia|].
  by rewrite IH by lia.
Qed.

(** Once the generator is exhausted within a depth bound, a larger bound
    gives the same moves. *)
Lemma hanoi_solver_more_fuel fuel : forall fuel' n s d a l,
  (fuel <= fuel')%nat ->
  hanoi_solver fuel n s d a = Some l -> hanoi_solver fuel' n s d a = Some l.
Proof.
  induction fuel as [|fuel IH]; intros fuel' n s d a l Hf; [done|].
  destruct fuel' as [|fuel']; [lia|].
  cbn [hanoi_solver]. destruct (n =? 1); [done|].
  destruct (hanoi_solver fuel (n - 1) s a d) as [before|] eqn:Eb; [|done].
  destruct (hanoi_solver fuel (n - 1) a d s) as [after|] eqn:Ea; [|done].
  intros E. rewrite (IH fuel' _ _ _ _ before), (IH fuel' _ _ _ _ after); [done|lia|done|lia|done].
Qed.

(** Induction along the recursion of [hanoi_solver]: a property of the base
    case that is carried through the recursive case holds of the list of
    moves, which exists as soon as the depth bound reaches [n]. *)
Lemma hanoi_solver_rec (P : Z -> PegName -> PegName -> PegName -> list Move -> Prop) :
  (forall s d a, P 1 s d a [mkMove 1 s d]) ->
  (forall n s d a before after,
      2 <= n -> P (n - 1) s a d before -> P (n - 1) a d s after ->
      P n s d a (before ++ [mkMove n s d] ++ after)) ->
  forall fuel n s d a,
    1 <= n -> (Z.to_nat n <= fuel)%nat ->
    exists l, hanoi_solver fuel n s d a = Some l /\ P n s d a l.
Proof.
  intros Base Step. induction fuel as [|fuel IH]; intros n s d a Hn Hf; [lia|].
  cbn [hanoi_solver]. destruct (Z.eqb_spec n 1) as [->|N].
  - eexists. split; [done|apply Base].
  - destruct (IH (n - 1) s a d) as (before & -> & Pb); [lia..|].
    destruct (IH (n - 1) a d s) as (after & -> & Pa); [lia..|].
    eexists. split; [done|]. apply Step; [lia|done..].
Qed.

Lemma count_disk_app k l1 l2 :
  count_disk k (l1 ++ l2) = (count_disk k l1 + count_disk k l2)%nat.
Proof. unfold count_disk. by rewrite List.filter_app, length_app. Qed.

Lemma count_disk_single k n s d :
  count_disk k [mkMove n s d] = if decide (n = k) then 1%nat else 0%nat.
Proof.
  unfold count_disk. simpl. case_decide as E.
  - by rewrite (proj2 (Z.eqb_eq _ _) E).
  - by rewrite (proj2 (Z.eqb_neq _ _) E).
Qed.

Lemma pow2_double n : 1 <= n -> 2 ^ n = 2 * 2 ^ (n - 1).
Proof.
  intros H. replace n with (Z.succ (n - 1)) at 1 by lia.
  apply Z.pow_succ_r. lia.
Qed.

(** ** Running the generated moves *)

Lemma apply_moves_app l1 l2 self :
  apply_moves (l1 ++ l2) self =
  let (r1, self1) := apply_moves l1 self in
  let (r2, self2) := apply_moves l2 self1 in
  (r1 ++ r2, self2).
Proof.
  revert self. induction l1 as [|m l1 IH]; intros self.
  - simpl. by destruct (apply_moves l2 self).
  - simpl. destruct (GameState.execute_move m self) as [r self1].
    rewrite IH. destruct (apply_moves l1 self1) as [r1 self2].
    by destruct (apply_moves l2 self2).
Qed.

Lemma above_weaken n m l : m <= n -> above n l -> above m l.
Proof. intros H A top E. specialize (A top E). lia. Qed.

Lemma above_snoc n l d : n < size d -> above n (l ++ [d]).
Proof. intros H top. rewrite last_snoc. by intros [= <-]. Qed.

(** One legal move: the top disk of [f] goes to [t]. *)
Lemma execute_move_top f t self bottom d :
  f <> t ->
  disks_on f self = bottom ++ [d] ->
  above (size d) (disks_on t self) ->
  GameState.execute_move (mkMove (size d) f t) self =
  (Returned true, counted (pushed t d (popped f self))).
Proof.
  intros N E A.
  assert (last (disks_on f self) = Some d) as L by by rewrite E, last_snoc.
  rewrite (execute_move_passed _ _ d).
  - cbn [from_peg to_peg]. rewrite at_peg_push, disks_on_popped.
    case_decide; [done|].
    destruct (last (disks_on t self)) as [top|] eqn:T; [|done].
    specialize (A top T).
    by destruct (Z.geb_spec (size d) (size top)); [lia|].
  - split; [done|]. split; [done|]. cbn [to_peg]. intros top T.
    specialize (A top T). lia.
Qed.

Lemma disks_on_moved f t k self bottom d :
  f <> t ->
  disks_on f self = bottom ++ [d] ->
  disks_on k (counted (pushed t d (popped f self))) =
  if decide (k = f) then bottom
  else if decide (k = t) then disks_on t self ++ [d]
  else disks_on k self.
Proof.
  intros N E. rewrite disks_on_counted, disks_on_pushed, !disks_on_popped.
  rewrite E, removelast_last.
  by peg_cases.
Qed.

Lemma same_frame_moved f t d self :
  same_frame (counted (pushed t d (popped f self))) self.
Proof.
  eapply same_frame_trans; [apply same_frame_counted|].
  eapply same_frame_trans; apply same_frame_with_disks.
Qed.

Lemma moves_tower_base s d a : moves_tower 1 s d a [mkMove 1 s d].
Proof.
  intros Nsd Nsa Nda self bottom tower E Sz Ab Ad Aa.
  change (range_down 1) with [1] in Sz.
  destruct tower as [|d1 [|? ?]]; try discriminate Sz. injection Sz as Sz.
  exists (counted (pushed d d1 (popped s self))).
  rewrite <- Sz in Ad |- *. cbn [apply_moves].
  rewrite (execute_move_top s d self bottom d1) by done.
  split; [done|]. rewrite !(disks_on_moved s d _ self bottom d1) by done.
  peg_cases.
  repeat split; try done; apply same_frame_moved.
Qed.

Lemma moves_tower_step n s d a before after :
  2 <= n ->
  moves_tower (n - 1) s a d before ->
  moves_tower (n - 1) a d s after ->
  moves_tower n s d a (before ++ [mkMove n s d] ++ after).
Proof.
  intros Hn IH1 IH2 Nsd Nsa Nda self bottom tower E Sz Ab Ad Aa.
  rewrite range_down_pos in Sz by lia.
  destruct tower as [|dn tower]; [discriminate|]. injection Sz as Sn Sz.
  destruct (IH1 Nsa Nsd (not_eq_sym Nda) self (bottom ++ [dn]) tower)
    as (self1 & R1 & S1 & A1 & D1 & C1 & F1).
  { by rewrite <- app_assoc. }
  { done. }
  { apply above_snoc. lia. }
  { eapply above_weaken; [|done]. lia. }
  { eapply above_weaken; [|done]. lia. }
  pose proof (execute_move_top s d self1 bottom dn Nsd S1) as R2.
  rewrite Sn, D1 in R2. specialize (R2 Ad).
  set (self2 := counted (pushed d dn (popped s self1))) in R2.
  assert (forall k, disks_on k self2 =
                    if decide (k = s) then bottom
                    else if decide (k = d) then disks_on d self1 ++ [dn]
                    else disks_on k self1) as M2
    by (intros k; by apply disks_on_moved).
  destruct (IH2 (not_eq_sym Nda) (not_eq_sym Nsa) (not_eq_sym Nsd)
                self2 (disks_on a self) tower)
    as (self3 & R3 & A3 & D3 & S3 & C3 & F3).
  { rewrite M2. by peg_cases. }
  { done. }
  { eapply above_weaken; [|done]. lia. }
  { rewrite M2. peg_cases. apply above_snoc. lia. }
  { rewrite M2. peg_cases.
    eapply above_weaken; [|done]. lia. }
  exists self3. split; [|split; [|split; [|split; [|split]]]].
  - rewrite apply_moves_app, R1. cbn [app apply_moves]. rewrite R2, R3.
    f_equal. rewrite length_app. cbn [length].
    by rewrite repeat_app.
  - rewrite S3, M2. by case_decide.
  - rewrite D3, M2, D1. peg_cases.
    by rewrite <- app_assoc.
  - done.
  - rewrite C3. subst self2. cbn [current_move counted set_current_move].
    change (current_move (pushed d dn (popped s self1))) with (current_move self1).
    rewrite C1, length_app. cbn [length app]. lia.
  - eapply same_frame_trans; [done|].
    eapply same_frame_trans; [apply same_frame_moved|done].
Qed.

Lemma hanoi_solver_moves_tower fuel n s d a :
  1 <= n -> (Z.to_nat n <= fuel)%nat ->
  exists l, hanoi_solver fuel n s d a = Some l /\ moves_tower n s d a l.
Proof.
  apply hanoi_solver_rec; [apply moves_tower_base|apply moves_tower_step].
Qed.

Lemma hanoi_solver_length fuel n s d a :
  1 <= n -> (Z.to_nat n <= fuel)%nat ->
  exists l, hanoi_solver fuel n s d a = Some l /\ Z.of_nat (length l) = 2 ^ n - 1.
Proof.
  apply (hanoi_solver_rec (fun n _ _ _ l => Z.of_nat (length l) = 2 ^ n - 1)).
  - done.
  - intros m s' d' a' before after Hm Hb Ha.
    rewrite !length_app. cbn [length].
    rewrite (pow2_double m) by lia. lia.
Qed.

Lemma hanoi_solver_counts : forall fuel n s d a,
  1 <= n -> (Z.to_nat n <= fuel)%nat ->
  exists l, hanoi_solver fuel n s d a = Some l /\ counts_ok n l.
Proof.
  apply (hanoi_solver_rec (fun m _ _ _ l => counts_ok m l)).
  - intros s' d' a' k. rewrite count_disk_single.
    repeat case_decide; try lia. by replace k with 1 by lia.
  - intros m s' d' a' before after Hm Hb Ha k.
    rewrite !count_disk_app, count_disk_single, !Nat2Z.inj_add, Hb, Ha.
    repeat case_decide; try lia.
    + rewrite (pow2_double (m - k)) by lia.
      replace (m - k - 1) with (m - 1 - k) by lia. lia.
    + replace (m - k) with 0 by lia. simpl. lia.
Qed.

Lemma is_solved_result self :
  GameState.is_solved self =
  (Returned
     (if Z.of_nat (length (disks_on DESTINATION self)) =? num_disks self
      then match last (disks_on SOURCE self) with
           | Some _ => false
           | None => match last (disks_on AUXILIARY self) with
                     | Some _ => false
                     | None => true
                     end
           end
      else false), self).
Proof.
  unfold GameState.is_solved, bind. rewrite at_peg_size.
  destruct (_ =? _); [|done].
  rewrite at_peg_is_empty. destruct (last (disks_on SOURCE self)); [done|].
  by rewrite at_peg_is_empty.
Qed.

(** * Main results *)

(** C1: for every [n >= 1], the moves that
    [hanoi_solver(n, SOURCE, DESTINATION, AUXILIARY)] yields, applied in
    order to a freshly constructed [GameState(n)], all make [execute_move]
    return [True]; afterwards [is_solved()] is [True] and [current_move]
    equals [total_moves], which is [2^n - 1]. *)
Theorem hanoi_solver_solves_puzzle (fuel : nat) (n : Z) :
  1 <= n -> (Z.to_nat n <= fuel)%nat ->
  exists moves start final,
    hanoi_solver fuel n SOURCE DESTINATION AUXILIARY = Some moves /\
    GameState.init n = Returned start /\
    apply_moves moves start = (repeat (Returned true) (length moves), final) /\
    GameState.is_solved final = (Returned true, final) /\
    current_move final = total_moves final /\
    total_moves final = 2 ^ n - 1.
Proof.
  intros Hn Hf.
  destruct (hanoi_solver_moves_tower fuel n SOURCE DESTINATION AUXILIARY Hn Hf)
    as (moves & Em & T).
  destruct (hanoi_solver_length fuel n SOURCE DESTINATION AUXILIARY Hn Hf)
    as (moves' & Em' & Len).
  rewrite Em in Em'. injection Em' as <-.
  destruct (T ltac:(done) ltac:(done) ltac:(done) (fresh n) [] (new_disks palette n))
    as (final & R & S & D & A & C & (Fn & Ft & _)); try done.
  { apply sizes_new_disks. }
  exists moves, (fresh n), final.
  split; [done|]. split; [apply init_fresh|]. split; [done|].
  change (disks_on DESTINATION (fresh n)) with (@nil Disk) in D.
  change (disks_on AUXILIARY (fresh n)) with (@nil Disk) in A.
  change (current_move (fresh n)) with 0 in C.
  change (num_disks (fresh n)) with n in Fn.
  change (total_moves (fresh n)) with (2 ^ n - 1) in Ft.
  split; [|split; [lia|done]].
  rewrite is_solved_result, S, A, D, Fn. simpl app.
  unfold new_disks. rewrite length_map, range_down_length by lia.
  by rewrite Z.eqb_refl.
Qed.

Lemma hanoi_solver_solves_puzzle_witness :
  exists moves start final,
    hanoi_solver 4 4 SOURCE DESTINATION AUXILIARY = Some moves /\
    GameState.init 4 = Returned start /\
    apply_moves moves start = (repeat (Returned true) (length moves), final) /\
    GameState.is_solved final = (Returned true, final) /\
    current_move final = total_moves final /\
    total_moves final = 2 ^ 4 - 1.
Proof. apply (hanoi_solver_solves_puzzle 4 4); [lia|simpl; lia]. Defined.

(** C2: for every [n >= 1] the generator [hanoi_solver(n, source,
    destination, auxiliary)] is exhausted after finitely many moves: a
    recursion depth of [n] suffices, and no deeper bound changes what is
    yielded.  It yields exactly [2^n - 1] moves. *)
Theorem hanoi_solver_yields_all_moves (fuel : nat) (n : Z)
        (source destination auxiliary : PegName) :
  1 <= n -> (Z.to_nat n <= fuel)%nat ->
  exists moves,
    hanoi_solver fuel n source destination auxiliary = Some moves /\
    Z.of_nat (length moves) = 2 ^ n - 1 /\
    forall fuel', (fuel <= fuel')%nat ->
                  hanoi_solver fuel' n source destination auxiliary = Some moves.
Proof.
  intros Hn Hf.
  destruct (hanoi_solver_length fuel n source destination auxiliary Hn Hf)
    as (moves & E & L).
  exists moves. split; [done|]. split; [done|].
  intros fuel' Hf'. by apply (hanoi_solver_more_fuel fuel).
Qed.

Lemma hanoi_solver_yields_all_moves_witness :
  exists moves,
    hanoi_solver 20 20 SOURCE DESTINATION AUXILIARY = Some moves /\
    Z.of_nat (length moves) = 2 ^ 20 - 1 /\
    forall fuel', (20 <= fuel')%nat ->
                  hanoi_solver fuel' 20 SOURCE DESTINATION AUXILIARY = Some moves.
Proof. apply (hanoi_solver_yields_all_moves 20 20); [lia|simpl; lia]. Defined.

(** C5: for every [n >= 1] and every [k] with [1 <= k <= n], exactly
    [2^(n-k)] of the moves that [hanoi_solver(n, source, destination,
    auxiliary)] yields carry the disk of size [k]. *)
Theorem hanoi_solver_moves_per_disk (fuel : nat) (n k : Z)
        (source destination auxiliary : PegName) :
  1 <= n -> 1 <= k <= n -> (Z.to_nat n <= fuel)%nat ->
  exists moves,
    hanoi_solver fuel n source destination auxiliary = Some moves /\
    Z.of_nat (count_disk k moves) = 2 ^ (n - k).
Proof.
  intros Hn Hk Hf.
  destruct (hanoi_solver_counts fuel n source destination auxiliary Hn Hf)
    as (moves & E & C).
  exists moves. split; [done|]. rewrite C. by case_decide.
Qed.

Lemma hanoi_solver_moves_per_disk_witness :
  exists moves,
    hanoi_solver 5 5 SOURCE DESTINATION AUXILIARY = Some moves /\
    Z.of_nat (count_disk 2 moves) = 2 ^ (5 - 2).
Proof. apply (hanoi_solver_moves_per_disk 5 5 2); [lia|lia|simpl; lia]. Defined.

(** C8: [hanoi_solver(3, SOURCE, DESTINATION, AUXILIARY)] yields the seven
    moves (1,A,C), (2,A,B), (1,C,B), (3,A,C), (1,B,A), (2,B,C), (1,A,C), and
    applying them to a fresh [GameState(3)] leaves SOURCE and AUXILIARY empty
    and DESTINATION holding the disks 3, 2, 1 from bottom to top. *)
Theorem hanoi_solver_three_disks :
  hanoi_solver 3 3 SOURCE DESTINATION AUXILIARY =
    Some [ mkMove 1 SOURCE DESTINATION; mkMove 2 SOURCE AUXILIARY;
           mkMove 1 DESTINATION AUXILIARY; mkMove 3 SOURCE DESTINATION;
           mkMove 1 AUXILIARY SOURCE; mkMove 2 AUXILIARY DESTINATION;
           mkMove 1 SOURCE DESTINATION ] /\
  map PegName_value [SOURCE; AUXILIARY; DESTINATION] = ["A"; "B"; "C"]%string /\
  exists moves start,
    hanoi_solver 3 3 SOURCE DESTINATION AUXILIARY = Some moves /\
    length moves = 7%nat /\
    GameState.init 3 = Returned start /\
    let final := snd (apply_moves moves start) in
    sizes SOURCE final = [] /\
    sizes AUXILIARY final = [] /\
    sizes DESTINATION final = [3; 2; 1].
Proof.
  split; [reflexivity|]. split; [reflexivity|].
  eexists _, _. split; [reflexivity|]. split; [reflexivity|].
  split; [reflexivity|]. by vm_compute.
Qed.

(** C3, the code at the failing input: on a fresh [GameState(3)] the move of
    disk 1 from SOURCE to SOURCE finds the target peg non-empty with a top
    disk of size 1, which is not strictly greater than the moved disk's size;
    the third guard tests [<] where [Peg.push] tests [>=], so the move is not
    refused: [execute_move] returns [True] and the counter goes from 0 to 1,
    the pegs being as before. *)
Theorem execute_move_accepts_equal_top :
  exists start top,
    GameState.init 3 = Returned start /\
    last (disks_on SOURCE start) = Some top /\
    size top = 1 /\
    current_move start = 0 /\
    GameState.execute_move (mkMove 1 SOURCE SOURCE) start =
      (Returned true, set_current_move 1 start).
Proof. eexists _, _. repeat split; reflexivity. Qed.

(** C4: in every state reachable from a fresh [GameState(n)] through calls of
    [execute_move], the sizes on every peg, read from bottom to top, are
    strictly decreasing; and a call of [execute_move] that returns [True] in
    a state with that property leads to a state with that property. *)
Theorem pegs_stay_strictly_decreasing :
  (forall n self, reachable n self -> pegs_sorted self) /\
  (forall move self self',
      pegs_sorted self ->
      GameState.execute_move move self = (Returned true, self') ->
      pegs_sorted self').
Proof.
  split.
  - intros n self R. by apply (reachable_sorted_disjoint n).
  - intros move self self' S E.
    pose proof (pegs_sorted_step move self S) as S'. by rewrite E in S'.
Qed.

Lemma pegs_stay_strictly_decreasing_witness :
  pegs_sorted (snd (GameState.execute_move (mkMove 1 SOURCE DESTINATION) (fresh 3))) /\
  pegs_sorted (counted (pushed AUXILIARY (Disk_init 1 "#E8F4FD")
                                (popped SOURCE (fresh 2)))).
Proof.
  split.
  - apply (proj1 pegs_stay_strictly_decreasing 3).
    apply reachable_step, reachable_init. reflexivity.
  - apply (proj2 pegs_stay_strictly_decreasing (mkMove 1 SOURCE AUXILIARY) (fresh 2)).
    + intros k. destruct k; simpl; lia.
    + reflexivity.
Defined.

(** C6, as the code has it: on a non-empty peg, [push] of a disk whose size
    is greater than or equal to the top disk's size raises [ValueError] and
    leaves the peg unchanged; on an empty peg, or with a disk smaller than
    the top one, [push] returns and the disk is the new top, above the disks
    that were there. *)
Theorem Peg_push_raises_or_appends (disk : Disk) (self : Peg) :
  (forall top, last (disks self) = Some top -> size top <= size disk ->
               Peg.push disk self = (Raised ValueError, self)) /\
  (last (disks self) = None \/
   (exists top, last (disks self) = Some top /\ size disk < size top) ->
   Peg.push disk self = (Returned tt, set_disks (disks self ++ [disk]) self)).
Proof.
  unfold Peg.push, raise, modify. split.
  - intros top -> L. by destruct (Z.geb_spec (size disk) (size top)); [|lia].
  - intros [->|(top & -> & L)]; [done|].
    by destruct (Z.geb_spec (size disk) (size top)); [lia|].
Qed.

Lemma Peg_push_raises_or_appends_witness :
  Peg.push (Disk_init 3 "#7ED321") (mkPeg DESTINATION [Disk_init 2 "#4A90E2"]) =
    (Raised ValueError, mkPeg DESTINATION [Disk_init 2 "#4A90E2"]) /\
  Peg.push (Disk_init 1 "#E8F4FD") (mkPeg DESTINATION [Disk_init 2 "#4A90E2"]) =
    (Returned tt, mkPeg DESTINATION [Disk_init 2 "#4A90E2"; Disk_init 1 "#E8F4FD"]).
Proof.
  split.
  - apply (proj1 (Peg_push_raises_or_appends _ _) (Disk_init 2 "#4A90E2")).
    + reflexivity.
    + simpl. lia.
  - apply (proj2 (Peg_push_raises_or_appends (Disk_init 1 "#E8F4FD")
                    (mkPeg DESTINATION [Disk_init 2 "#4A90E2"]))).
    right. exists (Disk_init 2 "#4A90E2"). split; [reflexivity|simpl; lia].
Defined.

(** C6, where the claim fails: pushing the disk of size 3 onto a peg whose
    top has size 2 is signalled by a raised [ValueError], not by a value
    handed back to the caller; and [execute_move], the caller, does not catch
    it: with equal tops on two pegs the exception leaves [execute_move] after
    the source peg has been popped. *)
Lemma Peg_push_failure_not_recovered :
  let peg := mkPeg DESTINATION [Disk_init 2 "#4A90E2"] in
  let disk := Disk_init 3 "#7ED321" in
  let one := Disk_init 1 "#E8F4FD" in
  let self := with_disks DESTINATION [one] (with_disks SOURCE [one] (GameState.blank 1)) in
  (exists top, last (disks peg) = Some top /\ size disk >= size top) /\
  Peg.push disk peg = (Raised ValueError, peg) /\
  ~ recovered (Peg.push disk peg) /\
  GameState.execute_move (mkMove 1 SOURCE DESTINATION) self =
    (Raised ValueError, with_disks SOURCE [] self) /\
  ~ recovered (GameState.execute_move (mkMove 1 SOURCE DESTINATION) self).
Proof.
  cbv zeta. split; [eexists; split; [reflexivity|simpl; lia]|].
  split; [reflexivity|].
  split; [intros [v E]; discriminate E|]. split; [reflexivity|].
  intros [v E]. discriminate E.
Qed.

(** C7: in every state reached from a [GameState(n)] through calls of
    [execute_move], [reset()] returns and leaves exactly the state that the
    constructor builds for [n]: SOURCE holds the sizes [n, n-1, ..., 1] from
    the bottom up, AUXILIARY and DESTINATION are empty, and [current_move]
    is 0. *)
Theorem reset_restores_fresh_state (n : Z) (self : GameState) :
  reachable n self ->
  exists start,
    GameState.init n = Returned start /\
    GameState.reset self = (Returned tt, start) /\
    sizes SOURCE start = range_down n /\
    sizes AUXILIARY start = [] /\
    sizes DESTINATION start = [] /\
    current_move start = 0.
Proof.
  intros R. exists (fresh n).
  split; [apply init_fresh|].
  split; [by apply reset_to_fresh, reachable_frame|].
  split; [apply (sizes_fresh n SOURCE)|done].
Qed.

Lemma reset_restores_fresh_state_witness :
  exists start,
    GameState.init 3 = Returned start /\
    GameState.reset (snd (GameState.execute_move (mkMove 1 SOURCE DESTINATION) (fresh 3)))
      = (Returned tt, start) /\
    sizes SOURCE start = range_down 3 /\
    sizes AUXILIARY start = [] /\
    sizes DESTINATION start = [] /\
    current_move start = 0.
Proof.
  apply (reset_restores_fresh_state 3).
  apply reachable_step, reachable_init. reflexivity.
Defined.

(** C10: in every state reachable from a fresh [GameState(n)] through calls
    of [execute_move], a call of [execute_move] with any move returns a
    boolean and raises nothing; in particular, when the three guards let the
    move through, the [Peg.push] that follows the pop returns. *)
Theorem execute_move_never_raises (n : Z) (self : GameState) (move : Move) :
  reachable n self ->
  (exists (b : bool) self', GameState.execute_move move self = (Returned b, self')) /\
  (forall d, passes_guards move self d ->
     exists self',
       at_peg (to_peg move) (Peg.push d) (popped (from_peg move) self) =
       (Returned tt, self')).
Proof.
  intros [S D]%reachable_sorted_disjoint.
  destruct (execute_move_returns move self S D) as [b E].
  split.
  - destruct (GameState.execute_move move self) as [r self'].
    simpl in E. subst r. by eexists _, _.
  - intros d G. rewrite (execute_move_passed _ _ _ G) in E.
    destruct (at_peg _ _ _) as [[[]|e] self']; [by eexists|discriminate E].
Qed.

Lemma execute_move_never_raises_witness :
  (exists (b : bool) self',
      GameState.execute_move (mkMove 2 SOURCE DESTINATION)
        (snd (GameState.execute_move (mkMove 1 SOURCE DESTINATION) (fresh 3)))
      = (Returned b, self')) /\
  (forall d,
      passes_guards (mkMove 2 SOURCE DESTINATION)
        (snd (GameState.execute_move (mkMove 1 SOURCE DESTINATION) (fresh 3))) d ->
      exists self',
        at_peg DESTINATION (Peg.push d)
          (popped SOURCE
             (snd (GameState.execute_move (mkMove 1 SOURCE DESTINATION) (fresh 3)))) =
        (Returned tt, self')).
Proof.
  apply (execute_move_never_raises 3).
  apply reachable_step, reachable_init. reflexivity.
Defined.

(** ** Pausing and resuming the playback *)

Lemma on_game_state_is_solved self gs :
  TowerOfHanoiGUI.game_state self = Some gs ->
  exists b, TowerOfHanoiGUI.on_game_state GameState.is_solved self = (Returned b, self).
Proof.
  intros E. unfold TowerOfHanoiGUI.on_game_state. rewrite E, is_solved_result.
  eexists. f_equal. destruct self. simpl in E. by subst.
Qed.

Lemma finish_solving_playback self :
  playback (snd (TowerOfHanoiGUI.finish_solving self)) = playback self.
Proof.
  unfold TowerOfHanoiGUI.finish_solving, bind, modify.
  unfold TowerOfHanoiGUI.config_start_button, TowerOfHanoiGUI.config_pause_button, modify.
  cbn [fst snd TowerOfHanoiGUI.game_state TowerOfHanoiGUI.set_root
       TowerOfHanoiGUI.set_is_paused TowerOfHanoiGUI.set_is_solving].
  destruct (TowerOfHanoiGUI.game_state self) as [gs|] eqn:E; [|done].
  match goal with
  | |- context [TowerOfHanoiGUI.on_game_state _ ?s] =>
      destruct (on_game_state_is_solved s gs E) as [b ->]
  end.
  by destruct b.
Qed.

Lemma next_move_running self gs move rest :
  TowerOfHanoiGUI.is_solving self = true ->
  TowerOfHanoiGUI.is_paused self = false ->
  TowerOfHanoiGUI.move_generator self = Some (move :: rest) ->
  TowerOfHanoiGUI.game_state self = Some gs ->
  playback (snd (TowerOfHanoiGUI.next_move self)) =
  (Some (snd (GameState.execute_move move gs)), Some rest).
Proof.
  intros Hs Hp Hg He. unfold TowerOfHanoiGUI.next_move. rewrite Hs, Hp, Hg.
  cbn [negb orb].
  unfold bind at 1 2 3. unfold modify at 1 2.
  unfold TowerOfHanoiGUI.on_game_state at 1.
  cbn [TowerOfHanoiGUI.game_state TowerOfHanoiGUI.set_current_move
       TowerOfHanoiGUI.set_move_generator].
  rewrite He.
  destruct (GameState.execute_move move gs) as [[[]|e] gs']; cbn [snd].
  - unfold TowerOfHanoiGUI.draw_puzzle, TowerOfHanoiGUI.update_status, bind, ret.
    cbn [TowerOfHanoiGUI.game_state TowerOfHanoiGUI.set_game_state].
    unfold TowerOfHanoiGUI.config_status_label, modify.
    match goal with
    | |- context [TowerOfHanoiGUI.on_game_state _ ?s] =>
        destruct (on_game_state_is_solved s gs' eq_refl) as [b ->]
    end.
    destruct b; [|done]. by rewrite finish_solving_playback.
  - unfold TowerOfHanoiGUI.showerror, bind, modify.
    by rewrite finish_solving_playback.
  - done.
Qed.

Lemma toggle_pause_resumes self gs move rest :
  TowerOfHanoiGUI.is_solving self = true ->
  TowerOfHanoiGUI.is_paused self = true ->
  TowerOfHanoiGUI.move_generator self = Some (move :: rest) ->
  TowerOfHanoiGUI.game_state self = Some gs ->
  playback (snd (TowerOfHanoiGUI.toggle_pause self)) =
  (Some (snd (GameState.execute_move move gs)), Some rest).
Proof.
  intros Hs Hp Hg He. unfold TowerOfHanoiGUI.toggle_pause. rewrite Hs, Hp.
  cbn [negb]. unfold bind, modify, TowerOfHanoiGUI.config_pause_button, modify.
  cbn [TowerOfHanoiGUI.is_paused TowerOfHanoiGUI.set_is_paused TowerOfHanoiGUI.set_root negb].
  by apply next_move_running.
Qed.

(** C9: a [next_move] callback that fires while the controller is paused, or
    while no solve is in progress, returns at once: it takes no move from the
    generator and leaves the game state, and everything else, as it was.
    Resuming through [toggle_pause] takes the next move the generator has not
    yet yielded, hands it to [execute_move] on the game state as it stands,
    and leaves the generator at the moves after it: playback continues and
    does not start over. *)
Theorem next_move_guarded_and_resumed :
  (forall self,
      TowerOfHanoiGUI.is_solving self = false \/ TowerOfHanoiGUI.is_paused self = true ->
      TowerOfHanoiGUI.next_move self = (Returned tt, self)) /\
  (forall self gs move rest,
      TowerOfHanoiGUI.is_solving self = true ->
      TowerOfHanoiGUI.is_paused self = true ->
      TowerOfHanoiGUI.move_generator self = Some (move :: rest) ->
      TowerOfHanoiGUI.game_state self = Some gs ->
      let self' := snd (TowerOfHanoiGUI.toggle_pause self) in
      TowerOfHanoiGUI.move_generator self' = Some rest /\
      TowerOfHanoiGUI.game_state self' = Some (snd (GameState.execute_move move gs))).
Proof.
  split.
  - intros self H. unfold TowerOfHanoiGUI.next_move.
    destruct H as [-> | ->]; [done|]. by rewrite orb_true_r.
  - intros self gs move rest Hs Hp Hg He self'.
    pose proof (toggle_pause_resumes self gs move rest Hs Hp Hg He) as P.
    fold self' in P. unfold playback in P. by injection P as -> ->.
Qed.

Lemma next_move_guarded_and_resumed_witness :
  TowerOfHanoiGUI.next_move paused_after_first_move =
    (Returned tt, paused_after_first_move) /\
  TowerOfHanoiGUI.move_generator
    (snd (TowerOfHanoiGUI.toggle_pause paused_after_first_move)) =
    Some [ mkMove 1 DESTINATION AUXILIARY; mkMove 3 SOURCE DESTINATION;
           mkMove 1 AUXILIARY SOURCE; mkMove 2 AUXILIARY DESTINATION;
           mkMove 1 SOURCE DESTINATION ] /\
  sizes AUXILIARY
    (default (fresh 3)
       (TowerOfHanoiGUI.game_state
          (snd (TowerOfHanoiGUI.toggle_pause paused_after_first_move)))) = [2].
Proof.
  split.
  - apply (proj1 next_move_guarded_and_resumed). right. reflexivity.
  - destruct (proj2 next_move_guarded_and_resumed paused_after_first_move
                _ _ _ eq_refl eq_refl eq_refl eq_refl) as [G S].
    split; [exact G|]. rewrite S. reflexivity.
Defined.

(** * Further properties *)

(** ** Refusals *)

(** X1: [execute_move] returns [False] in exactly three situations: the
    source peg is empty, its top disk has not the size the move names, or
    the top disk of the target peg is strictly smaller than the disk to
    move; and whenever it returns [False] the whole state is as before. *)
Theorem execute_move_refuses_exactly (move : Move) (self : GameState) :
  fst (GameState.execute_move move self) = Returned false ->
  snd (GameState.execute_move move self) = self /\
  (disks_on (from_peg move) self = [] \/
   (exists d, last (disks_on (from_peg move) self) = Some d /\
              size d <> disk_size move) \/
   (exists d top, last (disks_on (from_peg move) self) = Some d /\
                  last (disks_on (to_peg move) self) = Some top /\
                  size top < size d)).
Proof.
  intros R. pose proof (proj1 (execute_move_false_iff move self) R) as C.
  split; [|done].
  destruct C as [E|[(d & F & S)|(d & top & F & T & L)]].
  - by rewrite execute_move_from_empty.
  - by rewrite (execute_move_mismatch _ _ d).
  - by rewrite (execute_move_blocked _ _ d top).
Qed.

Lemma execute_move_refuses_exactly_witness :
  snd (GameState.execute_move (mkMove 2 SOURCE DESTINATION) (fresh 3)) = fresh 3 /\
  (disks_on SOURCE (fresh 3) = [] \/
   (exists d, last (disks_on SOURCE (fresh 3)) = Some d /\ size d <> 2) \/
   (exists d top, last (disks_on SOURCE (fresh 3)) = Some d /\
                  last (disks_on DESTINATION (fresh 3)) = Some top /\
                  size top < size d)).
Proof.
  apply (execute_move_refuses_exactly (mkMove 2 SOURCE DESTINATION) (fresh 3)).
  reflexivity.
Defined.

(** ** Conservation of the disks *)

Lemma all_disks_moved f t d self :
  last (disks_on f self) = Some d ->
  all_disks (counted (pushed t d (popped f self))) ≡ₚ all_disks self.
Proof.
  intros E. apply snoc_view in E. unfold all_disks.
  rewrite !disks_on_counted, !disks_on_pushed, !disks_on_popped.
  set (b := removelast (disks_on f self)) in *.
  destruct f, t; repeat case_decide; try congruence; rewrite E;
    rewrite <- ?app_assoc; cbn [app];
    rewrite <- ?Permutation_middle; rewrite ?app_nil_r; reflexivity.
Qed.

(** A call of [execute_move] that returns neither creates nor loses a disk. *)
Lemma all_disks_step move self b :
  fst (GameState.execute_move move self) = Returned b ->
  all_disks (snd (GameState.execute_move move self)) ≡ₚ all_disks self.
Proof.
  destruct (execute_move_outcome move self) as [E|d (F & _) _ E|d top _ _ _ E];
    rewrite E; simpl; [done| |done].
  intros _. by apply all_disks_moved.
Qed.

Lemma reachable_all_disks n self :
  reachable n self -> all_disks self ≡ₚ new_disks palette n.
Proof.
  induction 1 as [self E|self move R IH].
  - rewrite init_fresh in E. injection E as <-.
    unfold all_disks. change (disks_on SOURCE (fresh n)) with (new_disks palette n).
    change (disks_on AUXILIARY (fresh n)) with (@nil Disk).
    change (disks_on DESTINATION (fresh n)) with (@nil Disk).
    by rewrite !app_nil_r.
  - destruct (reachable_sorted_disjoint _ _ R) as [S D].
    destruct (execute_move_returns move self S D) as [b E].
    by rewrite (all_disks_step _ _ _ E).
Qed.

(** X2: in every state reachable from a [GameState(n)] the three pegs hold,
    in some arrangement, exactly the disks the constructor made, so [n] of
    them when [n >= 0]: no call of [execute_move] creates, loses, duplicates
    or repaints a disk. *)
Theorem reachable_disks_conserved (n : Z) (self : GameState) :
  reachable n self ->
  all_disks self ≡ₚ new_disks palette n /\
  (0 <= n -> Z.of_nat (length (all_disks self)) = n).
Proof.
  intros R. pose proof (reachable_all_disks n self R) as P. split; [done|].
  intros Hn. rewrite P. unfold new_disks.
  by rewrite length_map, range_down_length.
Qed.

Lemma reachable_disks_conserved_witness :
  all_disks (snd (GameState.execute_move (mkMove 1 SOURCE DESTINATION) (fresh 3)))
  ≡ₚ new_disks palette 3 /\
  (0 <= 3 ->
   Z.of_nat (length (all_disks
     (snd (GameState.execute_move (mkMove 1 SOURCE DESTINATION) (fresh 3))))) = 3).
Proof.
  apply (reachable_disks_conserved 3).
  apply reachable_step, reachable_init. reflexivity.
Defined.

(** ** The move counter *)

Lemma current_move_step move self b :
  fst (GameState.execute_move move self) = Returned b ->
  current_move (snd (GameState.execute_move move self)) =
  current_move self + if b then 1 else 0.
Proof.
  destruct (execute_move_outcome move self) as [E|d _ _ E|d top _ _ _ E];
    rewrite E; simpl; [|intros [= <-]|done].
  - intros [= <-]. lia.
  - done.
Qed.

Lemma reachable_apply_moves n l : forall self,
  reachable n self -> reachable n (snd (apply_moves l self)).
Proof.
  induction l as [|m l IH]; intros self R; [done|].
  cbn [apply_moves].
  pose proof (reachable_step n self m R) as R1.
  destruct (GameState.execute_move m self) as [r self1]. simpl in R1.
  specialize (IH self1 R1). by destruct (apply_moves l self1).
Qed.

(** X3: from a reachable state, after any list of moves has been handed to
    [execute_move] one by one, every call has returned a boolean and
    [current_move] has grown by the number of calls that returned [True]:
    refused moves are not counted. *)
Theorem current_move_counts_successes (n : Z) (l : list Move) (self : GameState) :
  reachable n self ->
  Forall (fun r => r = Returned true \/ r = Returned false) (fst (apply_moves l self)) /\
  current_move (snd (apply_moves l self)) =
  current_move self + Z.of_nat (successes (fst (apply_moves l self))).
Proof.
  revert self. induction l as [|m l IH]; intros self R.
  - split; [constructor|]. unfold successes. simpl. lia.
  - cbn [apply_moves].
    destruct (reachable_sorted_disjoint _ _ R) as [S D].
    destruct (execute_move_returns m self S D) as [b E].
    pose proof (current_move_step _ _ _ E) as C.
    pose proof (reachable_step n self m R) as R1.
    destruct (GameState.execute_move m self) as [r self1]. simpl in *. subst r.
    destruct (IH self1 R1) as [F Cl].
    destruct (apply_moves l self1) as [rs self2]. simpl in *.
    split.
    + constructor; [by destruct b; [left|right]|done].
    + rewrite Cl, C. unfold successes. destruct b; simpl; lia.
Qed.

Lemma current_move_counts_successes_witness :
  let l := [mkMove 1 SOURCE DESTINATION; mkMove 2 SOURCE DESTINATION;
            mkMove 2 SOURCE AUXILIARY] in
  Forall (fun r => r = Returned true \/ r = Returned false)
         (fst (apply_moves l (fresh 3))) /\
  current_move (snd (apply_moves l (fresh 3))) =
  current_move (fresh 3) + Z.of_nat (successes (fst (apply_moves l (fresh 3)))).
Proof.
  apply (current_move_counts_successes 3).
  apply reachable_init. reflexivity.
Defined.

(** ** Push and pop *)

(** X4: a [push] that returns is undone by the next [pop]: the [pop]
    returns the disk just pushed and the peg is again as it was before the
    [push]. *)
Theorem Peg_pop_undoes_push (disk : Disk) (self self' : Peg) :
  Peg.push disk self = (Returned tt, self') ->
  Peg.pop self' = (Returned (Some disk), self).
Proof.
  intros P.
  assert (self' = set_disks (disks self ++ [disk]) self) as ->.
  { unfold Peg.push, raise, modify in P.
    destruct (last (disks self)) as [top|]; [|congruence].
    destruct (size disk >=? size top); congruence. }
  unfold Peg.pop. cbn [disks set_disks name].
  rewrite last_snoc, removelast_last. f_equal. by destruct self.
Qed.

Lemma Peg_pop_undoes_push_witness :
  Peg.pop (mkPeg AUXILIARY [Disk_init 3 "#7ED321"; Disk_init 1 "#E8F4FD"]) =
  (Returned (Some (Disk_init 1 "#E8F4FD")), mkPeg AUXILIARY [Disk_init 3 "#7ED321"]).
Proof.
  apply (Peg_pop_undoes_push (Disk_init 1 "#E8F4FD")
           (mkPeg AUXILIARY [Disk_init 3 "#7ED321"])).
  reflexivity.
Defined.

(** X5: on a peg whose sizes are strictly decreasing from bottom to top, a
    disk taken off by [pop] can be put back: [push] of that disk returns and
    the peg is again as it was before the [pop]. *)
Theorem Peg_push_undoes_pop (disk : Disk) (self self' : Peg) :
  strictly_decreasing (map size (disks self)) ->
  Peg.pop self = (Returned (Some disk), self') ->
  Peg.push disk self' = (Returned tt, self).
Proof.
  destruct self as [nm ds]. cbn [disks]. intros S P.
  unfold Peg.pop in P. cbn [disks set_disks name] in P.
  destruct (last ds) as [top|] eqn:E; [|congruence].
  injection P as -> <-.
  apply snoc_view in E. rewrite E, map_app in S.
  unfold Peg.push, raise, modify. cbn [disks set_disks name].
  rewrite <- E.
  destruct (last (removelast ds)) as [top|] eqn:T; [|done].
  assert (size disk < size top) as L.
  { apply (strictly_decreasing_above _ _ _ S).
    apply in_map. apply last_Some in T as [l' ->].
    apply in_or_app. right. by left. }
  by destruct (Z.geb_spec (size disk) (size top)); [lia|].
Qed.

Lemma Peg_push_undoes_pop_witness :
  Peg.push (Disk_init 1 "#E8F4FD") (mkPeg AUXILIARY [Disk_init 3 "#7ED321"]) =
  (Returned tt, mkPeg AUXILIARY [Disk_init 3 "#7ED321"; Disk_init 1 "#E8F4FD"]).
Proof.
  apply (Peg_push_undoes_pop (Disk_init 1 "#E8F4FD")
           (mkPeg AUXILIARY [Disk_init 3 "#7ED321"; Disk_init 1 "#E8F4FD"])).
  - simpl. lia.
  - reflexivity.
Defined.

(** ** More on the generator *)

(** X6: the generator is exhausted within a recursion depth exactly when
    [n >= 1] and the depth is at least [n]; for [n <= 0] the recursion never
    reaches its base case, whatever the depth allowed. *)
Theorem hanoi_solver_exhausted_iff (fuel : nat) (n : Z)
        (source destination auxiliary : PegName) :
  is_Some (hanoi_solver fuel n source destination auxiliary) <->
  1 <= n /\ (Z.to_nat n <= fuel)%nat.
Proof.
  split.
  - revert n source destination auxiliary.
    induction fuel as [|fuel IH]; intros n s d a [l E]; [done|].
    cbn [hanoi_solver] in E. destruct (Z.eqb_spec n 1) as [->|N]; [simpl; lia|].
    destruct (hanoi_solver fuel (n - 1) s a d) as [before|] eqn:Eb; [|done].
    specialize (IH (n - 1) s a d). rewrite Eb in IH.
    destruct (IH ltac:(by eexists)). lia.
  - intros [Hn Hf].
    destruct (hanoi_solver_length fuel n source destination auxiliary Hn Hf)
      as (l & -> & _). by eexists.
Qed.

Lemma hanoi_solver_exhausted_iff_witness :
  hanoi_solver 7 0 SOURCE DESTINATION AUXILIARY = None /\
  hanoi_solver 2 3 SOURCE DESTINATION AUXILIARY = None /\
  is_Some (hanoi_solver 3 3 SOURCE DESTINATION AUXILIARY).
Proof.
  split; [|split].
  - apply eq_None_not_Some.
    intros H%(proj1 (hanoi_solver_exhausted_iff 7 0 SOURCE DESTINATION AUXILIARY)).
    lia.
  - apply eq_None_not_Some.
    intros H%(proj1 (hanoi_solver_exhausted_iff 2 3 SOURCE DESTINATION AUXILIARY)).
    simpl in H. lia.
  - apply (proj2 (hanoi_solver_exhausted_iff 3 3 SOURCE DESTINATION AUXILIARY)).
    simpl. lia.
Defined.

Lemma proper_move_sub n s d a s' d' a' move :
  proper_move (n - 1) s' d' a' move ->
  (forall k, k = s' \/ k = d' \/ k = a' -> k = s \/ k = d \/ k = a) ->
  proper_move n s d a move.
Proof.
  intros (N & B & F & T) Sub. split; [done|]. split; [lia|]. split; by apply Sub.
Qed.

Lemma hanoi_solver_proper : forall fuel n s d a,
  1 <= n -> (Z.to_nat n <= fuel)%nat ->
  exists l, hanoi_solver fuel n s d a = Some l /\
            (s <> d -> s <> a -> d <> a -> Forall (proper_move n s d a) l).
Proof.
  apply (hanoi_solver_rec
           (fun m s d a l => s <> d -> s <> a -> d <> a -> Forall (proper_move m s d a) l)).
  - intros s d a Nsd _ _. constructor; [|constructor].
    split; [done|]. split; [simpl; lia|]. split; [by left|right; by left].
  - intros m s d a before after Hm Hb Ha Nsd Nsa Nda.
    apply Forall_app. split; [|apply Forall_cons; split].
    + eapply Forall_impl; [by apply Hb|].
      intros move P. apply (proper_move_sub _ _ _ _ _ _ _ _ P). tauto.
    + split; [done|]. split; [simpl; lia|]. split; [by left|right; by left].
    + eapply Forall_impl; [by apply Ha|].
      intros move P. apply (proper_move_sub _ _ _ _ _ _ _ _ P). tauto.
Qed.

(** X7: with three different pegs given, every move that
    [hanoi_solver(n, source, destination, auxiliary)] yields goes from one
    of the three pegs to a different one of them and carries a disk of size
    between 1 and [n]: the generator never asks for a move from a peg to
    itself. *)
Theorem hanoi_solver_yields_proper_moves (fuel : nat) (n : Z)
        (source destination auxiliary : PegName) :
  1 <= n -> (Z.to_nat n <= fuel)%nat ->
  source <> destination -> source <> auxiliary -> destination <> auxiliary ->
  exists moves,
    hanoi_solver fuel n source destination auxiliary = Some moves /\
    Forall (proper_move n source destination auxiliary) moves.
Proof.
  intros Hn Hf Nsd Nsa Nda.
  destruct (hanoi_solver_proper fuel n source destination auxiliary Hn Hf)
    as (moves & E & P).
  exists moves. split; [done|]. by apply P.
Qed.

Lemma hanoi_solver_yields_proper_moves_witness :
  exists moves,
    hanoi_solver 6 6 AUXILIARY SOURCE DESTINATION = Some moves /\
    Forall (proper_move 6 AUXILIARY SOURCE DESTINATION) moves.
Proof.
  apply (hanoi_solver_yields_proper_moves 6 6); [lia|simpl; lia|done..].
Defined.

(** ** No early solution *)

Lemma snd_apply_moves_app l1 l2 self :
  snd (apply_moves (l1 ++ l2) self) = snd (apply_moves l2 (snd (apply_moves l1 self))).
Proof.
  rewrite apply_moves_app. destruct (apply_moves l1 self) as [r1 self1].
  cbn [snd]. by destruct (apply_moves l2 self1).
Qed.

Lemma tower_in_transit_base s d a : tower_in_transit 1 s d a [mkMove 1 s d].
Proof.
  intros Nsd Nsa Nda self bottom tower E Sz Ab Ad Aa done rest Hl now.
  change (range_down 1) with [1] in Sz.
  destruct tower as [|d1 [|? ?]]; try discriminate Sz. injection Sz as Sz.
  destruct done as [|m done].
  - exists [d1], [], []. subst now. cbn [apply_moves snd].
    rewrite !app_nil_r. split; [done|]. split; [done|]. split; [done|]. by left.
  - injection Hl as <- Hl. destruct done; [|done]. simpl in Hl. subst rest.
    exists [], [d1], []. subst now. cbn [apply_moves].
    rewrite <- Sz in Ad |- *.
    rewrite (execute_move_top s d self bottom d1) by done. cbn [snd].
    rewrite !(disks_on_moved s d _ self bottom d1) by done.
    peg_cases. rewrite !app_nil_r. split; [done|]. split; [done|]. split; done.
Qed.

Lemma tower_in_transit_step n s d a before after :
  2 <= n ->
  moves_tower (n - 1) s a d before /\ tower_in_transit (n - 1) s a d before ->
  moves_tower (n - 1) a d s after /\ tower_in_transit (n - 1) a d s after ->
  tower_in_transit n s d a (before ++ [mkMove n s d] ++ after).
Proof.
  intros Hn [M1 T1] [M2 T2] Nsd Nsa Nda self bottom tower E Sz Ab Ad Aa.
  rewrite range_down_pos in Sz by lia.
  destruct tower as [|dn tower]; [discriminate|]. injection Sz as Sn Sz.
  assert (disks_on s self = (bottom ++ [dn]) ++ tower) as E1
    by by rewrite <- app_assoc.
  assert (above (n - 1) (bottom ++ [dn])) as Ab1 by (apply above_snoc; lia).
  assert (above (n - 1) (disks_on a self)) as Aa1
    by (eapply above_weaken; [|done]; lia).
  assert (above (n - 1) (disks_on d self)) as Ad1
    by (eapply above_weaken; [|done]; lia).
  assert (above (n - 1) bottom) as Ab2 by (eapply above_weaken; [|done]; lia).
  specialize (T1 Nsa Nsd (not_eq_sym Nda) self (bottom ++ [dn]) tower E1 Sz Ab1 Aa1 Ad1).
  destruct (M1 Nsa Nsd (not_eq_sym Nda) self (bottom ++ [dn]) tower E1 Sz Ab1 Aa1 Ad1)
    as (self1 & R1 & S1 & A1 & D1 & _).
  pose proof (execute_move_top s d self1 bottom dn Nsd S1) as R2.
  rewrite Sn, D1 in R2. specialize (R2 Ad).
  set (self2 := counted (pushed d dn (popped s self1))) in R2.
  assert (forall k, disks_on k self2 =
                    if decide (k = s) then bottom
                    else if decide (k = d) then disks_on d self1 ++ [dn]
                    else disks_on k self1) as M2'
    by (intros k; by apply disks_on_moved).
  assert (disks_on a self2 = disks_on a self ++ tower) as Ea2
    by (rewrite M2'; by peg_cases).
  assert (disks_on d self2 = disks_on d self ++ [dn]) as Ed2
    by (rewrite M2', D1; by peg_cases).
  assert (disks_on s self2 = bottom) as Es2 by (rewrite M2'; by peg_cases).
  assert (above (n - 1) (disks_on d self2)) as Ad2
    by (rewrite Ed2; apply above_snoc; lia).
  assert (above (n - 1) (disks_on s self2)) as As2 by by rewrite Es2.
  specialize (T2 (not_eq_sym Nda) (not_eq_sym Nsa) (not_eq_sym Nsd)
                 self2 (disks_on a self) tower Ea2 Sz Aa1 Ad2 As2).
  assert (forall l, snd (apply_moves (before ++ mkMove n s d :: l) self) =
                    snd (apply_moves l self2)) as Half.
  { intros l. rewrite snd_apply_moves_app, R1. cbn [snd apply_moves].
    rewrite R2. by destruct (apply_moves l self2). }
  assert (forall done' rest', before = done' ++ rest' ->
            exists on_s on_d on_a,
              disks_on s (snd (apply_moves done' self)) = bottom ++ on_s /\
              disks_on d (snd (apply_moves done' self)) = disks_on d self ++ on_d /\
              disks_on a (snd (apply_moves done' self)) = disks_on a self ++ on_a /\
              on_s <> []) as First.
  { intros done' rest' Hb.
    destruct (T1 done' rest' Hb) as (on_s & on_a & on_d & Hs & Ha & Hd & _).
    exists (dn :: on_s), on_d, on_a. rewrite Hs, <- app_assoc.
    split; [done|]. split; [done|]. split; done. }
  intros done rest Hl now. subst now.
  apply app_eq_app in Hl as [l' [[Hb Hr]|[Hd Hr]]].
  - destruct (First done l' Hb) as (on_s & on_d & on_a & Hs & Hd' & Ha & Ns).
    exists on_s, on_d, on_a. split; [done|]. split; [done|]. split; [done|].
    intros _. by left.
  - destruct l' as [|m l'].
    + rewrite app_nil_r in Hd. subst done.
      destruct (First before [] (eq_sym (app_nil_r _)))
        as (on_s & on_d & on_a & Hs & Hd' & Ha & Ns).
      exists on_s, on_d, on_a. split; [done|]. split; [done|]. split; [done|].
      intros _. by left.
    + simpl in Hr. injection Hr as <- Ha. subst done. rewrite Half.
      destruct (T2 l' rest Ha) as (on_a & on_d & on_s & Hsa & Hsd & Hss & Hne).
      exists on_s, (dn :: on_d), on_a.
      rewrite Hsa, Hsd, Hss, Ed2, Es2, <- app_assoc.
      split; [done|]. split; [done|]. split; [done|].
      intros Nr. destruct (Hne Nr); [by right|by left].
Qed.

Lemma hanoi_solver_in_transit : forall fuel n s d a,
  1 <= n -> (Z.to_nat n <= fuel)%nat ->
  exists l, hanoi_solver fuel n s d a = Some l /\
            moves_tower n s d a l /\ tower_in_transit n s d a l.
Proof.
  apply (hanoi_solver_rec
           (fun m s d a l => moves_tower m s d a l /\ tower_in_transit m s d a l)).
  - intros s d a. split; [apply moves_tower_base|apply tower_in_transit_base].
  - intros m s d a before after Hm Hb Ha. split.
    + apply moves_tower_step; [done|apply Hb|apply Ha].
    + by apply tower_in_transit_step.
Qed.

Lemma apply_moves_length l : forall self,
  length (fst (apply_moves l self)) = length l.
Proof.
  induction l as [|m l IH]; intros self; [done|].
  cbn [apply_moves]. destruct (GameState.execute_move m self) as [r self1].
  specialize (IH self1). destruct (apply_moves l self1). simpl in *. lia.
Qed.

Lemma apply_moves_all_true_app l1 l2 self :
  fst (apply_moves (l1 ++ l2) self) = repeat (Returned true) (length (l1 ++ l2)) ->
  fst (apply_moves l1 self) = repeat (Returned true) (length l1) /\
  fst (apply_moves l2 (snd (apply_moves l1 self))) = repeat (Returned true) (length l2).
Proof.
  rewrite apply_moves_app, length_app, repeat_app.
  pose proof (apply_moves_length l1 self) as L1.
  destruct (apply_moves l1 self) as [r1 self1]. cbn [fst snd] in *.
  destruct (apply_moves l2 self1) as [r2 self2]. cbn [fst snd].
  intros E. apply app_inj_1 in E; [done|]. by rewrite L1, repeat_length.
Qed.

Lemma apply_moves_all_true_counter l : forall self,
  fst (apply_moves l self) = repeat (Returned true) (length l) ->
  current_move (snd (apply_moves l self)) = current_move self + Z.of_nat (length l).
Proof.
  induction l as [|m l IH]; intros self; [simpl; lia|].
  cbn [apply_moves length repeat].
  pose proof (current_move_step m self true) as C.
  destruct (GameState.execute_move m self) as [r self1]. cbn [fst snd] in C.
  specialize (IH self1). destruct (apply_moves l self1) as [rs self2].
  cbn [fst snd] in *. intros [= -> E]. rewrite IH, C by done. lia.
Qed.

Lemma same_frame_apply_moves l : forall self,
  same_frame (snd (apply_moves l self)) self.
Proof.
  induction l as [|m l IH]; intros self; [apply same_frame_refl|].
  cbn [apply_moves]. pose proof (same_frame_step m self) as F.
  destruct (GameState.execute_move m self) as [r self1]. cbn [snd] in F.
  specialize (IH self1). destruct (apply_moves l self1) as [rs self2].
  cbn [snd] in *. by eapply same_frame_trans.
Qed.

(** What playing the generated moves on a fresh state is like, move by
    move. *)
Lemma playback_of_fresh fuel n :
  1 <= n -> (Z.to_nat n <= fuel)%nat ->
  exists moves,
    hanoi_solver fuel n SOURCE DESTINATION AUXILIARY = Some moves /\
    Z.of_nat (length moves) = 2 ^ n - 1 /\
    fst (apply_moves moves (fresh n)) = repeat (Returned true) (length moves) /\
    forall done rest, moves = done ++ rest ->
      let now := snd (apply_moves done (fresh n)) in
      current_move now = Z.of_nat (length done) /\
      total_moves now = 2 ^ n - 1 /\
      GameState.is_solved now =
        (Returned (match rest with [] => true | _ => false end), now) /\
      match rest with
      | [] => True
      | move :: _ =>
          GameState.execute_move move now =
          (Returned true, snd (apply_moves (done ++ [move]) (fresh n)))
      end.
Proof.
  intros Hn Hf.
  destruct (hanoi_solver_in_transit fuel n SOURCE DESTINATION AUXILIARY Hn Hf)
    as (moves & Em & M & T).
  destruct (hanoi_solver_length fuel n SOURCE DESTINATION AUXILIARY Hn Hf)
    as (moves' & Em' & Len).
  rewrite Em in Em'. injection Em' as <-.
  exists moves. split; [done|]. split; [done|].
  destruct (M ltac:(done) ltac:(done) ltac:(done) (fresh n) [] (new_disks palette n))
    as (final & R & S & D & A & _); try done.
  { apply sizes_new_disks. }
  split; [by rewrite R|].
  change (disks_on DESTINATION (fresh n)) with (@nil Disk) in D.
  change (disks_on AUXILIARY (fresh n)) with (@nil Disk) in A.
  specialize (T ltac:(done) ltac:(done) ltac:(done) (fresh n) [] (new_disks palette n)
                eq_refl (sizes_new_disks _ _)
                ltac:(done) ltac:(done) ltac:(done)).
  intros done rest Hl now.
  assert (fst (apply_moves (done ++ rest) (fresh n)) =
          repeat (Returned true) (length (done ++ rest))) as AllT
    by by rewrite <- Hl, R.
  destruct (apply_moves_all_true_app _ _ _ AllT) as [T1 T2]. fold now in T2.
  destruct (same_frame_apply_moves done (fresh n)) as (Fn & Ft & _). fold now in Fn, Ft.
  split; [|split; [done|split]].
  - subst now. by rewrite apply_moves_all_true_counter.
  - rewrite is_solved_result. destruct rest as [|move rest].
    + rewrite app_nil_r in Hl. subst done. subst now. rewrite R. cbn [snd].
      rewrite S, A, D. cbn [app last].
      change (num_disks (fresh n)) with n in Fn. rewrite R in Fn. cbn [snd] in Fn.
      rewrite Fn. unfold new_disks.
      rewrite length_map, range_down_length by lia. by rewrite Z.eqb_refl.
    + destruct (T done (move :: rest) Hl) as (on_s & on_d & on_a & Hs & _ & Ha & Ne).
      fold now in Hs, Ha. change (disks_on AUXILIARY (fresh n)) with (@nil Disk) in Ha.
      cbn [app] in Hs, Ha. rewrite Hs, Ha.
      destruct (_ =? _); [|done].
      destruct (Ne ltac:(done)) as [N|N].
      * destruct (last on_s) eqn:L; [done|]. by apply last_None in L.
      * destruct (last on_s); [done|].
        destruct (last on_a) eqn:L; [done|]. by apply last_None in L.
  - destruct rest as [|move rest]; [done|].
    rewrite snd_apply_moves_app. fold now. cbn [apply_moves] in T2 |- *.
    destruct (GameState.execute_move move now) as [r now1].
    destruct (apply_moves rest now1) as [rs now2]. cbn [fst snd length repeat] in *.
    by injection T2 as ->.
Qed.

(** X8: while the moves of [hanoi_solver(n, SOURCE, DESTINATION,
    AUXILIARY)] are applied in order to a fresh [GameState(n)], [is_solved()]
    is [False] after every proper part of them and [True] only once all have
    been applied; after [k] of them [current_move] is [k]. *)
Theorem solved_only_after_last_move (fuel : nat) (n : Z) :
  1 <= n -> (Z.to_nat n <= fuel)%nat ->
  exists moves start,
    hanoi_solver fuel n SOURCE DESTINATION AUXILIARY = Some moves /\
    GameState.init n = Returned start /\
    forall done rest, moves = done ++ rest ->
      let now := snd (apply_moves done start) in
      current_move now = Z.of_nat (length done) /\
      GameState.is_solved now =
        (Returned (match rest with [] => true | _ => false end), now).
Proof.
  intros Hn Hf. destruct (playback_of_fresh fuel n Hn Hf) as (moves & E & _ & _ & P).
  exists moves, (fresh n). split; [done|]. split; [apply init_fresh|].
  intros done rest Hl. destruct (P done rest Hl) as (C & _ & S & _). by split.
Qed.

Lemma solved_only_after_last_move_witness :
  exists moves start,
    hanoi_solver 3 3 SOURCE DESTINATION AUXILIARY = Some moves /\
    GameState.init 3 = Returned start /\
    forall done rest, moves = done ++ rest ->
      let now := snd (apply_moves done start) in
      current_move now = Z.of_nat (length done) /\
      GameState.is_solved now =
        (Returned (match rest with [] => true | _ => false end), now).
Proof. apply (solved_only_after_last_move 3 3); [lia|simpl; lia]. Defined.

(** ** What [is_solved] means *)

Lemma strictly_decreasing_Sorted l :
  strictly_decreasing l -> Sorted (fun a b => b < a) l.
Proof.
  induction l as [|a [|b l] IH]; intros S.
  - constructor.
  - repeat constructor.
  - destruct S as [L S]. constructor; [by apply IH|by constructor].
Qed.

Lemma strictly_decreasing_unique l1 l2 :
  strictly_decreasing l1 -> strictly_decreasing l2 -> l1 ≡ₚ l2 -> l1 = l2.
Proof.
  intros S1%strictly_decreasing_Sorted S2%strictly_decreasing_Sorted.
  assert (Transitive (fun a b : Z => b < a)) by (intros a b c; lia).
  apply (Sorted_unique_strong (fun a b : Z => b < a)); [|done..]. intros; lia.
Qed.

Lemma sizes_all_disks n self :
  reachable n self ->
  sizes SOURCE self ++ sizes AUXILIARY self ++ sizes DESTINATION self ≡ₚ range_down n.
Proof.
  intros R. rewrite <- (sizes_new_disks palette n).
  rewrite <- (reachable_all_disks n self R).
  unfold all_disks, sizes. fold (disks_on SOURCE self) (disks_on AUXILIARY self)
                                (disks_on DESTINATION self).
  by rewrite !map_app.
Qed.

(** X9: in a state reachable from a [GameState(n)], [n >= 0], [is_solved()]
    returns [True] exactly when DESTINATION holds the whole tower in order,
    the sizes [n, n-1, ..., 1] from the bottom up. *)
Theorem is_solved_iff_tower_on_destination (n : Z) (self : GameState) :
  0 <= n -> reachable n self ->
  GameState.is_solved self = (Returned true, self) <->
  sizes DESTINATION self = range_down n.
Proof.
  intros Hn R. pose proof (sizes_all_disks n self R) as P.
  destruct (reachable_frame n self R) as (Fn & _). change (num_disks (fresh n)) with n in Fn.
  rewrite is_solved_result, Fn. split.
  - intros [= E]. destruct (_ =? _); [|done].
    destruct (last (disks_on SOURCE self)) eqn:Ls; [done|].
    destruct (last (disks_on AUXILIARY self)) eqn:La; [done|].
    apply last_None in Ls, La.
    unfold sizes in P. fold (disks_on SOURCE self) (disks_on AUXILIARY self) in P.
    rewrite Ls, La in P. cbn [map app] in P.
    apply strictly_decreasing_unique; [|apply strictly_decreasing_range_down|done].
    by apply (reachable_sorted_disjoint n).
  - intros E. apply Permutation_length in P.
    rewrite E, !length_app in P.
    assert (length (sizes SOURCE self) = 0%nat /\
            length (sizes AUXILIARY self) = 0%nat) as [Ls La] by lia.
    unfold sizes in Ls, La, E. rewrite length_map in Ls, La.
    fold (disks_on SOURCE self) in Ls. fold (disks_on AUXILIARY self) in La.
    fold (disks_on DESTINATION self) in E.
    apply length_zero_iff_nil in Ls, La. rewrite Ls, La. cbn [last].
    replace (length (disks_on DESTINATION self))
      with (length (map size (disks_on DESTINATION self))) by apply length_map.
    rewrite E, range_down_length by done. by rewrite Z.eqb_refl.
Qed.

Lemma is_solved_iff_tower_on_destination_witness :
  GameState.is_solved (fresh 2) = (Returned true, fresh 2) <->
  sizes DESTINATION (fresh 2) = range_down 2.
Proof.
  apply (is_solved_iff_tower_on_destination 2); [lia|].
  apply reachable_init. reflexivity.
Defined.

(** X10: a puzzle built with [n <= 0] has no disk at all, and stays so:
    every call of [execute_move] is refused with the state unchanged, and
    [is_solved()] is [True] for [n = 0] and [False] for [n < 0]. *)
Theorem nothing_moves_without_disks (n : Z) (self : GameState) (move : Move) :
  n <= 0 -> reachable n self ->
  all_disks self = [] /\
  GameState.execute_move move self = (Returned false, self) /\
  GameState.is_solved self = (Returned (n =? 0), self).
Proof.
  intros Hn R. pose proof (reachable_all_disks n self R) as P.
  unfold new_disks in P. rewrite range_down_nonpos in P by done.
  apply Permutation_nil_r in P. split; [done|].
  unfold all_disks in P.
  apply app_eq_nil in P as [Ps P]. apply app_eq_nil in P as [Pa Pd].
  assert (forall k, disks_on k self = []) as Empty by (by intros []).
  split; [by apply execute_move_from_empty|].
  destruct (reachable_frame n self R) as (Fn & _). change (num_disks (fresh n)) with n in Fn.
  rewrite is_solved_result, !Empty, Fn. cbn [length last]. f_equal.
  change (Z.of_nat 0) with 0. rewrite (Z.eqb_sym 0 n). by destruct (n =? 0).
Qed.

Lemma nothing_moves_without_disks_witness :
  all_disks (fresh 0) = [] /\
  GameState.execute_move (mkMove 1 SOURCE DESTINATION) (fresh 0) =
    (Returned false, fresh 0) /\
  GameState.is_solved (fresh 0) = (Returned (0 =? 0), fresh 0).
Proof.
  apply (nothing_moves_without_disks 0); [lia|].
  apply reachable_init. reflexivity.
Defined.

(** ** The test of the repository *)

Lemma execute_in_order_all_true l : forall self,
  fst (apply_moves l self) = repeat (Returned true) (length l) ->
  execute_in_order l self = (Returned true, snd (apply_moves l self)).
Proof.
  induction l as [|m l IH]; intros self; [done|].
  cbn [apply_moves execute_in_order length repeat]. unfold bind.
  destruct (GameState.execute_move m self) as [r self1].
  specialize (IH self1). destruct (apply_moves l self1) as [rs self2].
  cbn [fst snd] in *. intros [= -> E]. by apply IH.
Qed.

Lemma test_disks_passes fuel n :
  1 <= n -> (Z.to_nat n <= fuel)%nat -> test_disks fuel n = Passed.
Proof.
  intros Hn Hf. destruct (playback_of_fresh fuel n Hn Hf) as (moves & E & L & T & P).
  unfold test_disks. rewrite init_fresh, E, L, Z.eqb_refl. cbn [negb].
  rewrite execute_in_order_all_true by done.
  destruct (P moves [] (eq_sym (app_nil_r _))) as (_ & _ & -> & _). done.
Qed.

(** X11: the test of [test_algorithm.py] passes.  For every [n >= 1] one
    round of its loop (build the state, collect the moves, check their
    number, execute them, check [is_solved]) reaches its end without a
    failed [assert], a refused move or an unsolved puzzle; hence the test,
    run for 3, 4, 5 and 20 disks, returns [True]. *)
Theorem test_hanoi_algorithm_passes (fuel : nat) :
  (forall n, 1 <= n -> (Z.to_nat n <= fuel)%nat -> test_disks fuel n = Passed) /\
  ((20 <= fuel)%nat -> test_hanoi_algorithm fuel = Passed).
Proof.
  split; [intros n; apply test_disks_passes|].
  intros Hf. unfold test_hanoi_algorithm. cbn [test_each].
  by rewrite !test_disks_passes by (simpl; lia).
Qed.

Lemma test_hanoi_algorithm_passes_witness :
  test_disks 20 7 = Passed /\ test_hanoi_algorithm 20 = Passed.
Proof.
  split.
  - apply (proj1 (test_hanoi_algorithm_passes 20) 7); [lia|simpl; lia].
  - apply (proj2 (test_hanoi_algorithm_passes 20)). lia.
Defined.

(** ** The highlight *)

Lemma In_combine_seq {A} (l : list A) : forall start j a,
  In (j, a) (combine (seq start (length l)) l) ->
  (start <= j)%nat /\ l !! (j - start)%nat = Some a.
Proof.
  induction l as [|b l IH]; intros start j a; [done|].
  cbn [length seq combine]. intros [[= <- <-]|I].
  - split; [lia|]. by rewrite Nat.sub_diag.
  - apply IH in I as [L E]. split; [lia|].
    replace (j - start)%nat with (S (j - S start)) by lia. done.
Qed.

Lemma In_enumerate_top {A} (l : list A) j a :
  In (j, a) (enumerate l) ->
  Z.of_nat j = Z.of_nat (length l) - 1 ->
  last l = Some a.
Proof.
  intros [_ E]%In_combine_seq J. rewrite last_lookup.
  replace (pred (length l)) with (j - 0)%nat by lia. done.
Qed.

Lemma filter_none {A} (f : A -> bool) l :
  (forall a, In a l -> f a = false) -> List.filter f l = [].
Proof.
  induction l as [|a l IH]; intros H; [done|].
  cbn [List.filter]. rewrite (H a) by by left.
  apply IH. intros b I. apply H. by right.
Qed.

(** X12: when [draw_puzzle] runs after a successful move between two
    different pegs, as it does in [next_move], it outlines no disk in red:
    its test looks for the disk of [current_move] on top of the peg the move
    came from, and after the move that disk is no longer there. *)
Theorem moved_disk_not_highlighted (move : Move) (self self' : GameState) :
  pegs_sorted self ->
  from_peg move <> to_peg move ->
  GameState.execute_move move self = (Returned true, self') ->
  highlighted (Some move) self' = [].
Proof.
  intros S N E.
  destruct (execute_move_outcome move self) as [R|d (F & Sz & _) _ R|d top _ _ _ R];
    rewrite R in E; [done| |done].
  injection E as <-.
  assert (forall peg_name,
            List.filter
              (fun jd => is_moving (Some move) peg_name
                  (lookup_peg peg_name
                     (pegs (counted (pushed (to_peg move) d (popped (from_peg move) self)))))
                  (fst jd) (snd jd))
              (enumerate (disks_on peg_name
                 (counted (pushed (to_peg move) d (popped (from_peg move) self))))) = [])
    as None.
  { intros peg_name. apply filter_none. intros [j disk] I. cbn [fst snd].
    unfold is_moving. destruct (bool_decide_reflect (peg_name = from_peg move)) as [->|];
      [|by rewrite andb_false_r].
    rewrite andb_true_r.
    destruct (Z.eqb_spec (size disk) (disk_size move)) as [Ed|]; [|done].
    fold (disks_on (from_peg move)
            (counted (pushed (to_peg move) d (popped (from_peg move) self)))).
    destruct (Z.eqb_spec (Z.of_nat j)
                (Z.of_nat (length (disks_on (from_peg move)
                   (counted (pushed (to_peg move) d (popped (from_peg move) self))))) - 1))
      as [Ej|]; [exfalso|done].
    pose proof (In_enumerate_top _ _ _ I Ej) as T.
    rewrite disks_on_counted, disks_on_pushed in T. case_decide; [congruence|].
    apply In_last_sizes in T.
    specialize (S (from_peg move)). rewrite (sizes_popped_top _ _ _ F) in S.
    pose proof (strictly_decreasing_above _ _ _ S T). lia. }
  unfold highlighted. cbn [flat_map].
  unfold disks_on in None. by rewrite !None.
Qed.

Lemma moved_disk_not_highlighted_witness :
  highlighted (Some (mkMove 1 SOURCE DESTINATION))
              (snd (GameState.execute_move (mkMove 1 SOURCE DESTINATION) (fresh 3))) = [].
Proof.
  apply (moved_disk_not_highlighted (mkMove 1 SOURCE DESTINATION) (fresh 3)).
  - intros k. destruct k; simpl; lia.
  - discriminate.
  - reflexivity.
Defined.

(** ** Playing to the end *)

Lemma on_game_state_query {A} (c : M GameState A) self gs r :
  TowerOfHanoiGUI.game_state self = Some gs ->
  c gs = (r, gs) ->
  TowerOfHanoiGUI.on_game_state c self = (r, self).
Proof.
  intros E C. unfold TowerOfHanoiGUI.on_game_state. rewrite E, C.
  f_equal. destruct self. simpl in E. by subst.
Qed.

(** A step of the playback whose move is accepted. *)
Lemma next_move_accepted self gs gs' move rest solved :
  TowerOfHanoiGUI.is_solving self = true ->
  TowerOfHanoiGUI.is_paused self = false ->
  TowerOfHanoiGUI.move_generator self = Some (move :: rest) ->
  TowerOfHanoiGUI.game_state self = Some gs ->
  GameState.execute_move move gs = (Returned true, gs') ->
  GameState.is_solved gs' = (Returned solved, gs') ->
  exists self',
    TowerOfHanoiGUI.next_move self = (Returned tt, self') /\
    TowerOfHanoiGUI.game_state self' = Some gs' /\
    TowerOfHanoiGUI.move_generator self' = Some rest /\
    TowerOfHanoiGUI.is_solving self' = negb solved /\
    TowerOfHanoiGUI.is_paused self' = false /\
    TowerOfHanoiGUI.animation_speed self' = TowerOfHanoiGUI.animation_speed self /\
    TowerOfHanoiGUI.current_move self' = (if solved then None else Some move) /\
    TowerOfHanoiGUI.error_dialogs (TowerOfHanoiGUI.root self') =
      TowerOfHanoiGUI.error_dialogs (TowerOfHanoiGUI.root self) /\
    TowerOfHanoiGUI.after_timers (TowerOfHanoiGUI.root self') =
      (if solved then TowerOfHanoiGUI.after_timers (TowerOfHanoiGUI.root self)
       else TowerOfHanoiGUI.after_timers (TowerOfHanoiGUI.root self) ++
            [TowerOfHanoiGUI.animation_speed self]) /\
    TowerOfHanoiGUI.status_label (TowerOfHanoiGUI.root self') =
      (if solved then TowerOfHanoiGUI.SolvedIn (current_move gs')
       else TowerOfHanoiGUI.MoveProgress (current_move gs') (total_moves gs')
              (total_moves gs' - current_move gs')).
Proof.
  intros Hs Hp Hg He Ex Es. unfold TowerOfHanoiGUI.next_move. rewrite Hs, Hp, Hg.
  cbn [negb orb].
  unfold bind at 1 2 3. unfold modify at 1 2.
  unfold TowerOfHanoiGUI.on_game_state at 1.
  cbn [TowerOfHanoiGUI.game_state TowerOfHanoiGUI.set_current_move
       TowerOfHanoiGUI.set_move_generator].
  rewrite He, Ex.
  unfold TowerOfHanoiGUI.draw_puzzle, TowerOfHanoiGUI.update_status, bind, ret.
  cbn [TowerOfHanoiGUI.game_state TowerOfHanoiGUI.set_game_state].
  unfold TowerOfHanoiGUI.config_status_label, modify.
  erewrite (on_game_state_query GameState.is_solved _ gs') by (done || exact Es).
  destruct solved.
  - unfold TowerOfHanoiGUI.finish_solving, bind, modify.
    unfold TowerOfHanoiGUI.config_start_button, TowerOfHanoiGUI.config_pause_button, modify.
    cbn [fst snd TowerOfHanoiGUI.game_state TowerOfHanoiGUI.set_root
         TowerOfHanoiGUI.set_is_paused TowerOfHanoiGUI.set_is_solving
         TowerOfHanoiGUI.set_current_move].
    erewrite (on_game_state_query GameState.is_solved _ gs') by (done || exact Es).
    unfold TowerOfHanoiGUI.config_status_label, modify.
    eexists. split; [reflexivity|]. by repeat split.
  - unfold TowerOfHanoiGUI.after, modify.
    eexists. split; [reflexivity|]. by repeat split.
Qed.

(** The playback from any point of a run to its end, one timer at a time. *)
Lemma fire_timers_to_the_end n moves :
  (forall played rest, moves = played ++ rest ->
     let now := snd (apply_moves played (fresh n)) in
     current_move now = Z.of_nat (length played) /\
     total_moves now = 2 ^ n - 1 /\
     GameState.is_solved now =
       (Returned (match rest with [] => true | _ => false end), now) /\
     match rest with
     | [] => True
     | move :: _ =>
         GameState.execute_move move now =
         (Returned true, snd (apply_moves (played ++ [move]) (fresh n)))
     end) ->
  forall rest played self t,
    moves = played ++ rest -> rest <> [] ->
    TowerOfHanoiGUI.game_state self = Some (snd (apply_moves played (fresh n))) ->
    TowerOfHanoiGUI.move_generator self = Some rest ->
    TowerOfHanoiGUI.is_solving self = true ->
    TowerOfHanoiGUI.is_paused self = false ->
    TowerOfHanoiGUI.after_timers (TowerOfHanoiGUI.root self) = [t] ->
    exists self',
      fire_timers (length rest) self = (Returned tt, self') /\
      TowerOfHanoiGUI.game_state self' = Some (snd (apply_moves moves (fresh n))) /\
      TowerOfHanoiGUI.move_generator self' = Some [] /\
      TowerOfHanoiGUI.is_solving self' = false /\
      TowerOfHanoiGUI.is_paused self' = false /\
      TowerOfHanoiGUI.current_move self' = None /\
      TowerOfHanoiGUI.after_timers (TowerOfHanoiGUI.root self') = [] /\
      TowerOfHanoiGUI.error_dialogs (TowerOfHanoiGUI.root self') =
        TowerOfHanoiGUI.error_dialogs (TowerOfHanoiGUI.root self) /\
      TowerOfHanoiGUI.status_label (TowerOfHanoiGUI.root self') =
        TowerOfHanoiGUI.SolvedIn (Z.of_nat (length moves)).
Proof.
  intros P rest. induction rest as [|move rest IH]; intros played self t Hl Ne Hg Hm Hs Hp Ht;
    [done|].
  destruct (P played (move :: rest) Hl) as (_ & _ & _ & Ex).
  assert (moves = (played ++ [move]) ++ rest) as Hl' by by rewrite <- app_assoc.
  destruct (P (played ++ [move]) rest Hl') as (Cm & _ & Es & _).
  cbn [length fire_timers]. unfold bind at 1. unfold fire_timer at 1.
  rewrite Ht. unfold bind at 1. unfold modify at 1.
  match goal with
  | |- context [TowerOfHanoiGUI.next_move ?s] =>
      destruct (next_move_accepted s _ _ move rest _ Hs Hp Hm Hg Ex Es)
        as (self1 & -> & Hg1 & Hm1 & Hs1 & Hp1 & _ & Hc1 & He1 & Ht1 & Hl1)
  end.
  cbn [TowerOfHanoiGUI.root TowerOfHanoiGUI.set_root TowerOfHanoiGUI.after_timers
       TowerOfHanoiGUI.error_dialogs TowerOfHanoiGUI.animation_speed app] in Ht1, He1.
  destruct rest as [|move' rest].
  - exists self1. cbn [fire_timers length]. unfold ret.
    rewrite app_nil_r in Hl'. subst moves.
    rewrite Cm in Hl1. by repeat split.
  - destruct (IH (played ++ [move]) self1 _ Hl' ltac:(done) Hg1 Hm1 Hs1 Hp1 Ht1)
      as (self' & -> & F).
    exists self'. split; [done|]. rewrite <- He1. apply F.
Qed.

Lemma pow2_ge_8 n : 3 <= n -> 8 <= 2 ^ n.
Proof. intros H. change 8 with (2 ^ 3). apply Z.pow_le_mono_r; lia. Qed.

Section WindowProperties.

Variable int : string -> option Z.

(** X13: pressing Start on an idle window whose disk count reads as an [n]
    between 3 and 10, with no timer pending, builds the puzzle, plays the
    first move and registers one timer; letting that timer and its
    successors fire, [2^n - 2] firings in all, plays every remaining move in
    order and ends the run: the puzzle is solved, the counter and the status
    line say [2^n - 1] moves, no timer is pending and no error was shown. *)
Theorem start_solving_plays_to_the_end (self : Controls.t) (n : Z) :
  TowerOfHanoiGUI.is_solving (Controls.gui self) = false ->
  int (Controls.disk_count_var self) = Some n ->
  3 <= n <= 10 ->
  TowerOfHanoiGUI.after_timers (TowerOfHanoiGUI.root (Controls.gui self)) = [] ->
  exists started ended final,
    Controls.start_solving int self = (Returned tt, started) /\
    Controls.input_errors started = Controls.input_errors self /\
    TowerOfHanoiGUI.is_solving (Controls.gui started) = true /\
    length (TowerOfHanoiGUI.after_timers (TowerOfHanoiGUI.root (Controls.gui started))) = 1%nat /\
    fire_timers (Z.to_nat (2 ^ n - 2)) (Controls.gui started) = (Returned tt, ended) /\
    TowerOfHanoiGUI.is_solving ended = false /\
    TowerOfHanoiGUI.game_state ended = Some final /\
    GameState.is_solved final = (Returned true, final) /\
    current_move final = 2 ^ n - 1 /\
    TowerOfHanoiGUI.status_label (TowerOfHanoiGUI.root ended) =
      TowerOfHanoiGUI.SolvedIn (2 ^ n - 1) /\
    TowerOfHanoiGUI.after_timers (TowerOfHanoiGUI.root ended) = [] /\
    TowerOfHanoiGUI.error_dialogs (TowerOfHanoiGUI.root ended) =
      TowerOfHanoiGUI.error_dialogs (TowerOfHanoiGUI.root (Controls.gui self)).
Proof.
  intros Hs Hi Hr Ht.
  destruct (playback_of_fresh (Z.to_nat n) n) as (moves & Em & Len & _ & P); [lia..|].
  pose proof (pow2_ge_8 n ltac:(lia)) as P8.
  destruct moves as [|first rest]; [simpl in Len; lia|].
  destruct rest as [|second rest]; [simpl in Len; lia|].
  destruct (P [] (first :: second :: rest) eq_refl) as (_ & _ & _ & Ex).
  destruct (P [first] (second :: rest) eq_refl) as (_ & _ & Es & _).
  unfold Controls.start_solving. rewrite Hs, Hi. cbn [andb negb].
  destruct (Z.leb_spec 3 n); [|lia]. destruct (Z.leb_spec n 10); [|lia]. cbn [andb negb].
  unfold Controls.new_game. rewrite init_fresh, Em.
  unfold bind, Controls.on_gui, modify, TowerOfHanoiGUI.draw_puzzle, ret.
  unfold TowerOfHanoiGUI.config_start_button, TowerOfHanoiGUI.config_pause_button, modify.
  cbn [Controls.gui Controls.set_gui].
  match goal with
  | |- context [TowerOfHanoiGUI.next_move ?s] =>
      destruct (next_move_accepted s (fresh n) _ first (second :: rest) false
                  eq_refl eq_refl eq_refl eq_refl Ex Es)
        as (g1 & -> & Hg1 & Hm1 & Hs1 & Hp1 & _ & _ & He1 & Ht1 & _)
  end.
  cbn [TowerOfHanoiGUI.root TowerOfHanoiGUI.set_root TowerOfHanoiGUI.set_is_paused
       TowerOfHanoiGUI.set_is_solving TowerOfHanoiGUI.set_move_generator
       TowerOfHanoiGUI.set_game_state TowerOfHanoiGUI.after_timers
       TowerOfHanoiGUI.error_dialogs] in Ht1, He1.
  rewrite Ht in Ht1. cbn [app] in Ht1.
  destruct (fire_timers_to_the_end n (first :: second :: rest) P
              (second :: rest) [first] g1 _ eq_refl ltac:(done) Hg1 Hm1 Hs1 Hp1 Ht1)
    as (ended & Run & Hge & _ & Hse & _ & _ & Hte & Hee & Hle).
  destruct (P (first :: second :: rest) [] (eq_sym (app_nil_r _))) as (Cm & _ & Sol & _).
  eexists _, ended, _. split; [reflexivity|]. cbn [Controls.gui Controls.set_gui Controls.input_errors].
  split; [done|]. split; [done|]. split; [by rewrite Ht1|].
  split.
  { replace (Z.to_nat (2 ^ n - 2)) with (length (second :: rest)); [done|].
    cbn [length] in Len |- *. lia. }
  split; [done|]. split; [done|]. split; [done|].
  split; [rewrite Cm; lia|]. split; [by rewrite Hle, Len|].
  split; [done|]. by rewrite Hee, He1.
Qed.

(** X14: pressing Start on an idle window whose disk count does not read
    as a number, or reads as one outside 3..10, only shows one error
    dialog: no puzzle is built, no generator is made, nothing is played. *)
Theorem start_solving_rejects_bad_count (self : Controls.t) :
  TowerOfHanoiGUI.is_solving (Controls.gui self) = false ->
  (forall n, int (Controls.disk_count_var self) = Some n -> ~ 3 <= n <= 10) ->
  exists text,
    Controls.start_solving int self =
    (Returned tt,
     Controls.mkWindow (Controls.gui self) (Controls.disk_count_var self)
                       (Controls.speed_var self)
                       (Controls.input_errors self ++ [text])).
Proof.
  intros Hs Bad. unfold Controls.start_solving. rewrite Hs. cbn [andb negb].
  destruct (int (Controls.disk_count_var self)) as [n|]; [|by eexists].
  specialize (Bad n eq_refl).
  destruct (Z.leb_spec 3 n), (Z.leb_spec n 10); cbn [andb negb]; try by eexists.
  lia.
Qed.

(** X15: pressing Start during a run never starts over.  While the run is
    not paused nothing happens at all; while it is paused, Start does to the
    controller what [toggle_pause] does (the canvas, which Start redraws
    first, is not part of the model): the run resumes with the next move of
    the same generator on the same puzzle.  The disk count is not even
    read. *)
Theorem start_solving_during_run (self : Controls.t) :
  TowerOfHanoiGUI.is_solving (Controls.gui self) = true ->
  Controls.start_solving int self =
  if TowerOfHanoiGUI.is_paused (Controls.gui self)
  then Controls.on_gui TowerOfHanoiGUI.toggle_pause self
  else (Returned tt, self).
Proof.
  intros Hs. unfold Controls.start_solving. rewrite Hs.
  destruct (TowerOfHanoiGUI.is_paused (Controls.gui self)) eqn:Hp; cbn [andb negb]; [|done].
  unfold Controls.on_gui, TowerOfHanoiGUI.toggle_pause. rewrite Hs, Hp. cbn [negb].
  unfold bind, modify, TowerOfHanoiGUI.draw_puzzle, ret,
    TowerOfHanoiGUI.config_pause_button, modify.
  cbn [Controls.gui Controls.set_gui TowerOfHanoiGUI.is_paused
       TowerOfHanoiGUI.set_is_paused TowerOfHanoiGUI.set_root negb].
  by destruct (TowerOfHanoiGUI.next_move _) as [[[]|e] g].
Qed.

Lemma finish_solving_timers self :
  TowerOfHanoiGUI.after_timers (TowerOfHanoiGUI.root (snd (TowerOfHanoiGUI.finish_solving self))) =
  TowerOfHanoiGUI.after_timers (TowerOfHanoiGUI.root self).
Proof.
  unfold TowerOfHanoiGUI.finish_solving, bind, modify.
  unfold TowerOfHanoiGUI.config_start_button, TowerOfHanoiGUI.config_pause_button, modify.
  cbn [fst snd TowerOfHanoiGUI.game_state TowerOfHanoiGUI.set_root
       TowerOfHanoiGUI.set_is_paused TowerOfHanoiGUI.set_is_solving].
  destruct (TowerOfHanoiGUI.game_state self) as [gs|] eqn:E; [|done].
  match goal with
  | |- context [TowerOfHanoiGUI.on_game_state _ ?s] =>
      destruct (on_game_state_is_solved s gs E) as [b ->]
  end.
  by destruct b.
Qed.

Lemma next_move_timers self :
  TowerOfHanoiGUI.after_timers (TowerOfHanoiGUI.root self) `prefix_of`
  TowerOfHanoiGUI.after_timers (TowerOfHanoiGUI.root (snd (TowerOfHanoiGUI.next_move self))).
Proof.
  unfold TowerOfHanoiGUI.next_move.
  destruct (negb _ || _); [done|].
  destruct (TowerOfHanoiGUI.move_generator self) as [[|move rest]|]; [| |done].
  - unfold bind, modify. by rewrite finish_solving_timers.
  - unfold bind at 1 2 3. unfold modify at 1 2.
    unfold TowerOfHanoiGUI.on_game_state at 1.
    cbn [TowerOfHanoiGUI.game_state TowerOfHanoiGUI.set_current_move
         TowerOfHanoiGUI.set_move_generator].
    destruct (TowerOfHanoiGUI.game_state self) as [gs|]; [|done].
    destruct (GameState.execute_move move gs) as [[[]|e] gs']; [| |done].
    + unfold TowerOfHanoiGUI.draw_puzzle, TowerOfHanoiGUI.update_status, bind, ret.
      cbn [TowerOfHanoiGUI.game_state TowerOfHanoiGUI.set_game_state].
      unfold TowerOfHanoiGUI.config_status_label, modify.
      match goal with
      | |- context [TowerOfHanoiGUI.on_game_state _ ?s] =>
          destruct (on_game_state_is_solved s gs' eq_refl) as [b ->]
      end.
      destruct b.
      * by rewrite finish_solving_timers.
      * unfold TowerOfHanoiGUI.after, modify. by eexists.
    + unfold TowerOfHanoiGUI.showerror, bind, modify.
      by rewrite finish_solving_timers.
Qed.

(** X16: no timer is ever cancelled.  Whatever the state, the timers
    pending before [next_move], before [toggle_pause] and before
    [reset_puzzle] are still pending, in the same order, afterwards: pausing
    and resetting leave the scheduled callback to fire. *)
Theorem timers_are_never_cancelled :
  (forall self,
      TowerOfHanoiGUI.after_timers (TowerOfHanoiGUI.root self) `prefix_of`
      TowerOfHanoiGUI.after_timers
        (TowerOfHanoiGUI.root (snd (TowerOfHanoiGUI.next_move self)))) /\
  (forall self,
      TowerOfHanoiGUI.after_timers (TowerOfHanoiGUI.root self) `prefix_of`
      TowerOfHanoiGUI.after_timers
        (TowerOfHanoiGUI.root (snd (TowerOfHanoiGUI.toggle_pause self)))) /\
  (forall self,
      TowerOfHanoiGUI.after_timers (TowerOfHanoiGUI.root (Controls.gui self)) =
      TowerOfHanoiGUI.after_timers
        (TowerOfHanoiGUI.root (Controls.gui (snd (Controls.reset_puzzle int self))))).
Proof.
  split; [apply next_move_timers|]. split.
  - intros self. unfold TowerOfHanoiGUI.toggle_pause.
    destruct (negb (TowerOfHanoiGUI.is_solving self)); [done|].
    unfold bind, modify, TowerOfHanoiGUI.config_pause_button, modify.
    cbn [TowerOfHanoiGUI.is_paused TowerOfHanoiGUI.set_is_paused TowerOfHanoiGUI.set_root].
    destruct (negb (negb (TowerOfHanoiGUI.is_paused self))); [|done].
    match goal with
    | |- context [TowerOfHanoiGUI.next_move ?s] => apply (next_move_timers s)
    end.
  - intros self. unfold Controls.reset_puzzle, bind, Controls.on_gui, modify.
    cbn [Controls.gui Controls.set_gui Controls.disk_count_var].
    assert (forall n w,
              TowerOfHanoiGUI.after_timers (TowerOfHanoiGUI.root (Controls.gui
                (snd ((Controls.new_game n ;;;
                       Controls.on_gui (TowerOfHanoiGUI.config_start_button true) ;;;
                       Controls.on_gui (TowerOfHanoiGUI.config_pause_button (Some false) "Pause") ;;;
                       Controls.on_gui TowerOfHanoiGUI.draw_puzzle ;;;
                       Controls.on_gui TowerOfHanoiGUI.update_status) w)))) =
              TowerOfHanoiGUI.after_timers (TowerOfHanoiGUI.root (Controls.gui w))) as Rest.
    { intros n w. unfold Controls.new_game. rewrite init_fresh.
      unfold bind, Controls.on_gui, modify, TowerOfHanoiGUI.draw_puzzle, ret,
        TowerOfHanoiGUI.update_status, TowerOfHanoiGUI.config_start_button,
        TowerOfHanoiGUI.config_pause_button, TowerOfHanoiGUI.config_status_label, modify.
      reflexivity. }
    unfold bind in Rest.
    destruct (int (Controls.disk_count_var self)) as [n|].
    + destruct (negb _); unfold ret, modify; cbn [fst snd]; by rewrite Rest.
    + unfold ret, modify. cbn [fst snd]. by rewrite Rest.
Qed.

Lemma on_gui_modify f self :
  Controls.on_gui (modify f) self =
  (Returned tt, Controls.set_gui (f (Controls.gui self)) self).
Proof. reflexivity. Qed.



End WindowProperties.

(** X18: pausing a run and resuming it adds a timer instead of replacing
    one.  From a running state whose next move is accepted and does not
    finish the puzzle, two calls of [toggle_pause] in a row play that move
    and leave every timer that was pending still pending plus a new one: a
    run with one scheduled callback has two afterwards. *)
Theorem pause_and_resume_add_a_timer (self : TowerOfHanoiGUI.t)
        (gs gs' : GameState) (move : Move) (rest : list Move) :
  TowerOfHanoiGUI.is_solving self = true ->
  TowerOfHanoiGUI.is_paused self = false ->
  TowerOfHanoiGUI.move_generator self = Some (move :: rest) ->
  TowerOfHanoiGUI.game_state self = Some gs ->
  GameState.execute_move move gs = (Returned true, gs') ->
  GameState.is_solved gs' = (Returned false, gs') ->
  let paused := snd (TowerOfHanoiGUI.toggle_pause self) in
  let resumed := snd (TowerOfHanoiGUI.toggle_pause paused) in
  TowerOfHanoiGUI.is_paused paused = true /\
  TowerOfHanoiGUI.after_timers (TowerOfHanoiGUI.root paused) =
    TowerOfHanoiGUI.after_timers (TowerOfHanoiGUI.root self) /\
  TowerOfHanoiGUI.is_paused resumed = false /\
  TowerOfHanoiGUI.game_state resumed = Some gs' /\
  TowerOfHanoiGUI.move_generator resumed = Some rest /\
  TowerOfHanoiGUI.after_timers (TowerOfHanoiGUI.root resumed) =
    TowerOfHanoiGUI.after_timers (TowerOfHanoiGUI.root self) ++
    [TowerOfHanoiGUI.animation_speed self].
Proof.
  intros Hs Hp Hg He Ex Es paused resumed.
  assert (exists w, paused =
            TowerOfHanoiGUI.mkGUI (Some gs) (Some (move :: rest)) true true
              (TowerOfHanoiGUI.animation_speed self) (TowerOfHanoiGUI.current_move self) w /\
            TowerOfHanoiGUI.after_timers w =
              TowerOfHanoiGUI.after_timers (TowerOfHanoiGUI.root self)) as (w & Epaused & Ew).
  { subst paused. unfold TowerOfHanoiGUI.toggle_pause. rewrite Hs, Hp. cbn [negb].
    unfold bind, modify, TowerOfHanoiGUI.config_pause_button, modify, ret.
    cbn [TowerOfHanoiGUI.is_paused TowerOfHanoiGUI.set_is_paused TowerOfHanoiGUI.set_root
         negb snd].
    destruct self. cbn in *. subst.
    eexists. split; reflexivity. }
  assert (exists g1,
            TowerOfHanoiGUI.toggle_pause paused = (Returned tt, g1) /\
            TowerOfHanoiGUI.is_paused g1 = false /\
            TowerOfHanoiGUI.game_state g1 = Some gs' /\
            TowerOfHanoiGUI.move_generator g1 = Some rest /\
            TowerOfHanoiGUI.after_timers (TowerOfHanoiGUI.root g1) =
              TowerOfHanoiGUI.after_timers w ++ [TowerOfHanoiGUI.animation_speed self])
    as (g1 & Eresumed & Hp1 & Hg1 & Hm1 & Ht1).
  { rewrite Epaused. unfold TowerOfHanoiGUI.toggle_pause.
    cbn [TowerOfHanoiGUI.is_solving negb].
    unfold bind, modify, TowerOfHanoiGUI.config_pause_button, modify.
    cbn [TowerOfHanoiGUI.is_paused TowerOfHanoiGUI.set_is_paused
         TowerOfHanoiGUI.set_root negb].
    match goal with
    | |- context [TowerOfHanoiGUI.next_move ?s] =>
        destruct (next_move_accepted s gs gs' move rest false
                    eq_refl eq_refl eq_refl eq_refl Ex Es)
          as (g1 & -> & Hg1 & Hm1 & _ & Hp1 & _ & _ & _ & Ht1 & _)
    end.
    exists g1. by repeat split. }
  subst resumed. rewrite Eresumed. cbn [snd].
  split; [by rewrite Epaused|]. split; [by rewrite Epaused|].
  split; [done|]. split; [done|]. split; [done|]. by rewrite Ht1, Ew.
Qed.

Lemma speed_map_get (text : string) :
  default 500 (Controls.speed_map !! text) =
  if decide (text = "Slow"%string) then 1000
  else if decide (text = "Fast"%string) then 100
  else 500.
Proof.
  unfold Controls.speed_map. rewrite !lookup_insert, lookup_empty.
  repeat case_decide; subst; done.
Qed.

(** X19: [update_animation_speed] sets the delay to 1000 for "Slow", 100
    for "Fast" and 500 for "Normal" and for any other text, and leaves the
    timers already pending as they are; the new delay is the one the next
    accepted move schedules its successor with. *)
Theorem new_speed_applies_to_next_timer (self : Controls.t)
        (gs gs' : GameState) (move : Move) (rest : list Move) :
  TowerOfHanoiGUI.is_solving (Controls.gui self) = true ->
  TowerOfHanoiGUI.is_paused (Controls.gui self) = false ->
  TowerOfHanoiGUI.move_generator (Controls.gui self) = Some (move :: rest) ->
  TowerOfHanoiGUI.game_state (Controls.gui self) = Some gs ->
  GameState.execute_move move gs = (Returned true, gs') ->
  GameState.is_solved gs' = (Returned false, gs') ->
  let changed := snd (Controls.update_animation_speed self) in
  let speed := TowerOfHanoiGUI.animation_speed (Controls.gui changed) in
  fst (Controls.update_animation_speed self) = Returned tt /\
  speed = (if decide (Controls.speed_var self = "Slow"%string) then 1000
           else if decide (Controls.speed_var self = "Fast"%string) then 100
           else 500) /\
  TowerOfHanoiGUI.after_timers (TowerOfHanoiGUI.root (Controls.gui changed)) =
    TowerOfHanoiGUI.after_timers (TowerOfHanoiGUI.root (Controls.gui self)) /\
  TowerOfHanoiGUI.after_timers
    (TowerOfHanoiGUI.root (snd (TowerOfHanoiGUI.next_move (Controls.gui changed)))) =
    TowerOfHanoiGUI.after_timers (TowerOfHanoiGUI.root (Controls.gui self)) ++ [speed].
Proof.
  intros Hs Hp Hg He Ex Es changed speed.
  subst speed changed. unfold Controls.update_animation_speed.
  rewrite on_gui_modify. cbn [fst snd Controls.gui Controls.set_gui
                              TowerOfHanoiGUI.animation_speed TowerOfHanoiGUI.root].
  split; [done|]. split; [apply speed_map_get|]. split; [done|].
  match goal with
  | |- context [TowerOfHanoiGUI.next_move ?s] =>
      destruct (next_move_accepted s gs gs' move rest false Hs Hp Hg He Ex Es)
        as (g1 & -> & _ & _ & _ & _ & _ & _ & _ & Ht1 & _)
  end.
  cbn [snd]. by rewrite Ht1.
Qed.

(** ** Examples for the window properties *)

Lemma start_solving_plays_to_the_end_witness :
  exists started ended final,
    Controls.start_solving int_sample (window idle_gui "3" "Normal") =
      (Returned tt, started) /\
    Controls.input_errors started = Controls.input_errors (window idle_gui "3" "Normal") /\
    TowerOfHanoiGUI.is_solving (Controls.gui started) = true /\
    length (TowerOfHanoiGUI.after_timers (TowerOfHanoiGUI.root (Controls.gui started))) = 1%nat /\
    fire_timers (Z.to_nat (2 ^ 3 - 2)) (Controls.gui started) = (Returned tt, ended) /\
    TowerOfHanoiGUI.is_solving ended = false /\
    TowerOfHanoiGUI.game_state ended = Some final /\
    GameState.is_solved final = (Returned true, final) /\
    current_move final = 2 ^ 3 - 1 /\
    TowerOfHanoiGUI.status_label (TowerOfHanoiGUI.root ended) =
      TowerOfHanoiGUI.SolvedIn (2 ^ 3 - 1) /\
    TowerOfHanoiGUI.after_timers (TowerOfHanoiGUI.root ended) = [] /\
    TowerOfHanoiGUI.error_dialogs (TowerOfHanoiGUI.root ended) =
      TowerOfHanoiGUI.error_dialogs
        (TowerOfHanoiGUI.root (Controls.gui (window idle_gui "3" "Normal"))).
Proof.
  apply (start_solving_plays_to_the_end int_sample (window idle_gui "3" "Normal") 3);
    [reflexivity|reflexivity|lia|reflexivity].
Defined.

Lemma start_solving_rejects_bad_count_witness :
  exists text,
    Controls.start_solving int_sample (window idle_gui "12" "Normal") =
    (Returned tt,
     Controls.mkWindow idle_gui "12" "Normal" ([] ++ [text])).
Proof.
  apply (start_solving_rejects_bad_count int_sample (window idle_gui "12" "Normal")).
  - reflexivity.
  - intros n [= <-]. lia.
Defined.

Lemma start_solving_during_run_witness :
  Controls.start_solving int_sample (window paused_after_first_move "3" "Normal") =
  if TowerOfHanoiGUI.is_paused (Controls.gui (window paused_after_first_move "3" "Normal"))
  then Controls.on_gui TowerOfHanoiGUI.toggle_pause
         (window paused_after_first_move "3" "Normal")
  else (Returned tt, window paused_after_first_move "3" "Normal").
Proof.
  apply (start_solving_during_run int_sample (window paused_after_first_move "3" "Normal")).
  reflexivity.
Defined.

Lemma pause_and_resume_add_a_timer_witness :
  let self := running_after_first_move in
  let paused := snd (TowerOfHanoiGUI.toggle_pause self) in
  let resumed := snd (TowerOfHanoiGUI.toggle_pause paused) in
  TowerOfHanoiGUI.is_paused paused = true /\
  TowerOfHanoiGUI.after_timers (TowerOfHanoiGUI.root paused) =
    TowerOfHanoiGUI.after_timers (TowerOfHanoiGUI.root self) /\
  TowerOfHanoiGUI.is_paused resumed = false /\
  TowerOfHanoiGUI.game_state resumed =
    Some (snd (apply_moves [mkMove 1 SOURCE DESTINATION; mkMove 2 SOURCE AUXILIARY]
                           (fresh 3))) /\
  TowerOfHanoiGUI.move_generator resumed =
    Some [ mkMove 1 DESTINATION AUXILIARY; mkMove 3 SOURCE DESTINATION;
           mkMove 1 AUXILIARY SOURCE; mkMove 2 AUXILIARY DESTINATION;
           mkMove 1 SOURCE DESTINATION ] /\
  TowerOfHanoiGUI.after_timers (TowerOfHanoiGUI.root resumed) =
    TowerOfHanoiGUI.after_timers (TowerOfHanoiGUI.root self) ++
    [TowerOfHanoiGUI.animation_speed self].
Proof.
  apply (pause_and_resume_add_a_timer running_after_first_move
           (snd (GameState.execute_move (mkMove 1 SOURCE DESTINATION) (fresh 3)))
           (snd (apply_moves [mkMove 1 SOURCE DESTINATION; mkMove 2 SOURCE AUXILIARY]
                             (fresh 3)))
           (mkMove 2 SOURCE AUXILIARY)
           [ mkMove 1 DESTINATION AUXILIARY; mkMove 3 SOURCE DESTINATION;
             mkMove 1 AUXILIARY SOURCE; mkMove 2 AUXILIARY DESTINATION;
             mkMove 1 SOURCE DESTINATION ]).
  all: vm_compute; reflexivity.
Defined.

Lemma new_speed_applies_to_next_timer_witness :
  let self := window running_after_first_move "3" "Fast" in
  let changed := snd (Controls.update_animation_speed self) in
  let speed := TowerOfHanoiGUI.animation_speed (Controls.gui changed) in
  fst (Controls.update_animation_speed self) = Returned tt /\
  speed = (if decide (Controls.speed_var self = "Slow"%string) then 1000
           else if decide (Controls.speed_var self = "Fast"%string) then 100
           else 500) /\
  TowerOfHanoiGUI.after_timers (TowerOfHanoiGUI.root (Controls.gui changed)) =
    TowerOfHanoiGUI.after_timers (TowerOfHanoiGUI.root (Controls.gui self)) /\
  TowerOfHanoiGUI.after_timers
    (TowerOfHanoiGUI.root (snd (TowerOfHanoiGUI.next_move (Controls.gui changed)))) =
    TowerOfHanoiGUI.after_timers (TowerOfHanoiGUI.root (Controls.gui self)) ++ [speed].
Proof.
  apply (new_speed_applies_to_next_timer
           (window running_after_first_move "3" "Fast")
           (snd (GameState.execute_move (mkMove 1 SOURCE DESTINATION) (fresh 3)))
           (snd (apply_moves [mkMove 1 SOURCE DESTINATION; mkMove 2 SOURCE AUXILIARY]
                             (fresh 3)))
           (mkMove 2 SOURCE AUXILIARY)
           [ mkMove 1 DESTINATION AUXILIARY; mkMove 3 SOURCE DESTINATION;
             mkMove 1 AUXILIARY SOURCE; mkMove 2 AUXILIARY DESTINATION;
             mkMove 1 SOURCE DESTINATION ]).
  all: vm_compute; reflexivity.
Defined.
